(** * epoll_threadpool: the EventManager reactor (src/eventmanager.cc)

    A shallow embedding of [rpc::EventManager]: the timer heap kept with
    [std::push_heap]/[std::pop_heap], the descriptor table, the worker
    registry, the public operations ([start], [stop], [enqueue], [watchFd],
    [removeFd]) and the worker loop [thread_main].

    Conventions of the embedding.
    - System and library calls ([pthread_mutex_lock], [epoll_ctl],
      [eventfd_write], [pthread_create], ...) are recorded as a trace of
      [effect]s in the order the code issues them; their results are ignored
      exactly where the code ignores them.
    - [WallTime] is a C++ [double] holding seconds.  A finite double is
      modelled by its value, a rational of [Q]: comparisons are exact, the
      arithmetic of the wait timeout rounds each result to the nearest
      double as IEEE 754 binary64 does, NaN is not represented and an
      infinity appears only as the overflow of that arithmetic.
    - Callbacks ([function<void()>], [function<void(int)>]) are opaque
      identifiers: the reactor only stores, copies and calls them. *)

From Stdlib Require Import ZArith QArith Qround Qminmax Qabs Qpower Lqa Lia.
From Stdlib Require Import SpecFloat.
From stdpp Require Import base option list sorting gmap sets.

Local Open Scope nat_scope.

(** ** The heap algorithms of <algorithm>

    [std::push_heap] and [std::pop_heap] are templates over the element
    type and the comparator; the section mirrors that.  The loops follow the
    usual hole-based implementation (libstdc++'s [__push_heap] and
    [__adjust_heap]): indices are positions in the vector, the vector is a
    list updated in place. *)

Section std_heap.
Context {A : Type} (comp : A → A → bool).

Definition parent (i : nat) : nat := (i - 1) / 2.

(** [__push_heap(first, holeIndex, topIndex, value, comp)]: move the hole
    towards [topIndex] while the parent compares below [value].  The hole
    index strictly decreases, so [holeIndex] iterations always suffice. *)
Fixpoint push_heap_loop (fuel : nat) (first : list A)
    (holeIndex topIndex : nat) (value : A) : list A :=
  match fuel with
  | O => <[holeIndex := value]> first
  | S fuel' =>
      match first !! parent holeIndex with
      | Some p =>
          if bool_decide (topIndex < holeIndex) && comp p value
          then push_heap_loop fuel' (<[holeIndex := p]> first)
                 (parent holeIndex) topIndex value
          else <[holeIndex := value]> first
      | None => <[holeIndex := value]> first
      end
  end.

(** [push_heap(first, last, comp)]: the element at [last - 1] is sifted up
    into the heap [first, last - 1). *)
Definition push_heap (first : list A) : list A :=
  match last first with
  | Some value =>
      push_heap_loop (length first - 1) first (length first - 1) 0 value
  | None => first
  end.

(** The first loop of [__adjust_heap(first, holeIndex, len, value, comp)]:
    the hole descends, each time taking the child that does not compare
    below its sibling, while it has two children inside [len]. *)
Fixpoint adjust_heap_loop (fuel : nat) (first : list A)
    (holeIndex len : nat) : list A * nat :=
  match fuel with
  | O => (first, holeIndex)
  | S fuel' =>
      if bool_decide (holeIndex < (len - 1) / 2) then
        let secondChild := 2 * (holeIndex + 1) in
        match first !! secondChild, first !! (secondChild - 1) with
        | Some r, Some l =>
            let secondChild := if comp r l then secondChild - 1 else secondChild in
            let c := if comp r l then l else r in
            adjust_heap_loop fuel' (<[holeIndex := c]> first) secondChild len
        | _, _ => (first, holeIndex)
        end
      else (first, holeIndex)
  end.

(** [__adjust_heap]: after the descent, a last lone left child (even
    [len]) is moved up too, then [value] is pushed up from the hole. *)
Definition adjust_heap (first : list A) (holeIndex len : nat) (value : A)
    : list A :=
  let '(first1, hole1) := adjust_heap_loop len first holeIndex len in
  let '(first2, hole2) :=
    if Nat.even len && bool_decide (2 ≤ len)
       && bool_decide (hole1 = (len - 2) / 2)
    then match first1 !! (2 * (hole1 + 1) - 1) with
         | Some l => (<[hole1 := l]> first1, 2 * (hole1 + 1) - 1)
         | None => (first1, hole1)
         end
    else (first1, hole1) in
  push_heap_loop hole2 first2 hole2 holeIndex value.

(** [pop_heap(first, last, comp)]: for more than one element, the root is
    stored at [last - 1] and the old last value is re-inserted from the
    root into [first, last - 1). *)
Definition pop_heap (first : list A) : list A :=
  if bool_decide (1 < length first) then
    match last first, head first with
    | Some value, Some root =>
        adjust_heap (<[length first - 1 := root]> first) 0
          (length first - 1) value
    | _, _ => first
    end
  else first.

(** [v.pop_back()]. *)
Definition pop_back (v : list A) : list A := take (length v - 1) v.

(** [std::is_heap]: no element compares above its parent. *)
Definition is_heap (v : list A) : Prop :=
  ∀ i x y, 0 < i → v !! i = Some y → v !! parent i = Some x → comp x y = false.

(** The heap property on the prefix [first, first + len). *)
Definition heap_upto (v : list A) (len : nat) : Prop :=
  ∀ i x y, 0 < i < len →
    v !! i = Some y → v !! parent i = Some x → comp x y = false.

(** The loop invariant of both algorithms: a heap with a hole at [h].
    Pairs that do not involve the hole are ordered, and the children of
    the hole are ordered against its parent, so that any value between
    them may fill it. *)
Definition hole_heap (v : list A) (h len : nat) : Prop :=
  (∀ i x y, 0 < i < len → i ≠ h → parent i ≠ h →
     v !! i = Some y → v !! parent i = Some x → comp x y = false) ∧
  (∀ i x y, 0 < i < len → 0 < h → parent i = h →
     v !! i = Some y → v !! parent h = Some x → comp x y = false).
End std_heap.


(** ** Data model *)

(** [typedef double WallTime]. *)
Definition WallTime : Type := Q.
Bind Scope Q_scope with WallTime.

(** [pthread_t] is an unsigned integer handle. *)
Definition pthread_t : Type := N.
Bind Scope N_scope with pthread_t.

(** Opaque identifiers of the closures handed to the reactor:
    [function<void()>] for tasks and [function<void(int)>] for watches. *)
Definition TaskFn : Type := nat.
Definition FdFn : Type := nat.

(** [struct Task { WallTime when; function<void()> f; }], as built by
    [Task t = { when, f }] in [enqueue]. *)
Record Task : Type := mkTask { when : WallTime; f : TaskFn }.

(** [x > y] on [WallTime]. *)
Definition Qgt_bool (x y : Q) : bool := negb (Qle_bool x y).

(** Modelled from the spec: the comparator [EventManager::compareTasks] is
    declared in eventmanager.h, which is not part of the sources at hand.
    The spec describes the timer queue as "a binary min-heap of (deadline,
    callback) pairs ordered by deadline" whose "root always holds the task
    with the smallest deadline"; with the max-heap convention of
    [std::push_heap] this is the comparator [a.when > b.when]. *)
Definition compareTasks (a b : Task) : bool := Qgt_bool (when a) (when b).

(** [struct epoll_event]: [events] is a [uint32_t], [data.fd] an [int]. *)
Record epoll_event : Type := mkEvent { events : Z; data_fd : Z }.

(** Conversions between [int] and [uint32_t] (two's complement, 32 bits):
    [ev.events = flags] and [key(events[i].data.fd, events[i].events)]. *)
Definition uint32_of_int (x : Z) : Z := (x mod 2 ^ 32)%Z.
Definition int_of_uint32 (u : Z) : Z :=
  (if u <? 2 ^ 31 then u else u - 2 ^ 32)%Z.

Definition INT_MIN : Z := (- 2 ^ 31)%Z.
Definition INT_MAX : Z := (2 ^ 31 - 1)%Z.
Definition EPOLLIN : Z := 1%Z.
Definition EPOLLHUP : Z := 16%Z.
Definition EINTR : Z := 4%Z.

(** The members of [EventManager] used by eventmanager.cc.  [_fds] is a
    [map<pair<int,int>, function<void(int)>>], [_tasks] a vector kept as a
    heap, [_thread_set] a [set<pthread_t>]. *)
Record EventManager : Type := mkEventManager {
  _is_running : bool;
  _epoll_fd : Z;
  _event_fd : Z;
  _fds : gmap (Z * Z) FdFn;
  _tasks : list Task;
  _thread_set : gset pthread_t
}.

Definition set_is_running (b : bool) (em : EventManager) : EventManager :=
  mkEventManager b (_epoll_fd em) (_event_fd em) (_fds em) (_tasks em)
    (_thread_set em).
Definition set_fds (m : gmap (Z * Z) FdFn) (em : EventManager) : EventManager :=
  mkEventManager (_is_running em) (_epoll_fd em) (_event_fd em) m (_tasks em)
    (_thread_set em).
Definition set_tasks (v : list Task) (em : EventManager) : EventManager :=
  mkEventManager (_is_running em) (_epoll_fd em) (_event_fd em) (_fds em) v
    (_thread_set em).
Definition set_thread_set (s : gset pthread_t) (em : EventManager)
    : EventManager :=
  mkEventManager (_is_running em) (_epoll_fd em) (_event_fd em) (_fds em)
    (_tasks em) s.

(** ** Effects

    The calls the reactor makes on the outside world, in program order. *)
Inductive epoll_op : Type := EPOLL_CTL_ADD | EPOLL_CTL_DEL.

Inductive dlog : Type := AttachedFds | PendingTasks.

Inductive effect : Type :=
| MutexLock                                   (* pthread_mutex_lock(&_mutex) *)
| MutexUnlock                                 (* pthread_mutex_unlock(&_mutex) *)
| ThreadCreate (thread : pthread_t)           (* pthread_create(&thread, NULL, trampoline, this) *)
| ThreadJoin (thread : pthread_t)             (* pthread_join(thread, NULL) *)
| EventfdWrite (fd : Z) (value : Z)           (* eventfd_write(fd, value) *)
| EventfdRead (fd : Z)                        (* eventfd_read(fd, &val) *)
| EpollCtl (epfd : Z) (op : epoll_op) (fd : Z) (ev : epoll_event)
| EpollWait (epfd : Z) (maxevents : Z) (timeout : Z)
| CallFd (cb : FdFn) (arg : Z)                (* f(events[i].events) *)
| CallTask (t : Task)                         (* t.f() *)
| LogError (errno : Z)                        (* LOG(ERROR) << "Epoll error: " ... *)
| DLogWarning (w : dlog).                     (* DLOG_IF(WARNING, ...) *)

Global Instance epoll_op_eq_dec : EqDecision epoll_op.
Proof. solve_decision. Defined.
Global Instance dlog_eq_dec : EqDecision dlog.
Proof. solve_decision. Defined.

(** ** The monad of member functions: state of the object and trace *)
Definition M (A : Type) : Type := EventManager → A * EventManager * list effect.

Global Instance M_ret : MRet M := λ A a em, (a, em, []).
Global Instance M_bind : MBind M := λ A B k m em,
  let '(a, em1, tr1) := m em in
  let '(b, em2, tr2) := k a em1 in
  (b, em2, tr1 ++ tr2).

Definition get : M EventManager := λ em, (em, em, []).
Definition modify (g : EventManager → EventManager) : M unit :=
  λ em, (tt, g em, []).
Definition emit (e : effect) : M unit := λ em, (tt, em, [e]).
Definition when_ (b : bool) (m : M unit) : M unit := if b then m else mret tt.

Definition result {A} (r : A * EventManager * list effect) : A := r.1.1.
Definition state_of {A} (r : A * EventManager * list effect) : EventManager := r.1.2.
Definition trace_of {A} (r : A * EventManager * list effect) : list effect := r.2.

(** [for (int i = 0; i < n; ++i) body(i)], counting upwards from [i]. *)
Fixpoint for_loop (n i : nat) (body : nat → M unit) : M unit :=
  match n with
  | O => mret tt
  | S n' => body i ;; for_loop n' (S i) body
  end.

(** ** Construction

    [EventManager::EventManager()]; the descriptors returned by
    [epoll_create(64)] and [eventfd(0, 0)] are inputs. *)
Definition EventManager_new (epoll_fd event_fd : Z) : EventManager * list effect :=
  (mkEventManager false epoll_fd event_fd ∅ [] ∅,
   [EpollCtl epoll_fd EPOLL_CTL_ADD event_fd (mkEvent EPOLLIN event_fd)]).

(** ** Lifecycle: [start] and [stop] *)

(** [bool EventManager::start(int num_threads)], called by thread [self];
    [new_thread i] is the handle stored by the [i]-th [pthread_create]. *)
Definition start (self : pthread_t) (num_threads : Z)
    (new_thread : nat → pthread_t) : M bool :=
  emit MutexLock ;;
  em ← get ;
  if bool_decide (self ∈ _thread_set em) then
    emit MutexUnlock ;; mret false
  else
    modify (set_is_running true) ;;
    for_loop (Z.to_nat num_threads) 0 (λ i,
      emit (ThreadCreate (new_thread i)) ;;
      modify (λ em, set_thread_set ({[new_thread i]} ∪ _thread_set em) em)) ;;
    emit MutexUnlock ;;
    mret true.

(** The handles created by [start(n)], in order of creation. *)
Definition spawned (n : Z) (new_thread : nat → pthread_t) : list pthread_t :=
  new_thread <$> seq 0 (Z.to_nat n).

(** Iteration over a [set<pthread_t>]: ascending order of the handles. *)
Definition set_sorted (s : gset pthread_t) : list pthread_t :=
  merge_sort N.le (elements s).
Definition set_begin (s : gset pthread_t) : option pthread_t :=
  head (set_sorted s).
Definition set_next (s : gset pthread_t) (t : pthread_t) : option pthread_t :=
  head (filter (λ x, (t < x)%N) (set_sorted s)).

(** Outcome of a part of [stop]: it returned, or the caller has released
    the mutex and is blocked in [pthread_join] on the handle under the iterator. *)
Inductive stop_point : Type :=
| StopReturned (r : bool)
| StopJoining (i : pthread_t).

(** The loop test [i != _thread_set.end()] and what follows it, with the
    mutex held. *)
Definition stop_loop_test (i : option pthread_t) : M stop_point :=
  match i with
  | Some t =>
      emit MutexUnlock ;; emit (ThreadJoin t) ;; mret (StopJoining t)
  | None =>
      modify (set_thread_set ∅) ;; emit MutexUnlock ;; mret (StopReturned true)
  end.

(** [stop] up to its first join (or its return). *)
Definition stop_enter (self : pthread_t) : M stop_point :=
  emit MutexLock ;;
  em ← get ;
  if bool_decide (self ∈ _thread_set em) then
    emit MutexUnlock ;; mret (StopReturned false)
  else
    modify (set_is_running false) ;;
    when_ (negb (bool_decide (_fds em = ∅))) (emit (DLogWarning AttachedFds)) ;;
    when_ (negb (bool_decide (_tasks em = []))) (emit (DLogWarning PendingTasks)) ;;
    modify (set_fds ∅) ;;
    modify (set_tasks []) ;;
    emit (EventfdWrite (_event_fd em) 1) ;;
    stop_loop_test (set_begin (_thread_set em)).

(** [stop] from the return of [pthread_join] on the handle under the iterator: lock, [++i], test. *)
Definition stop_joined (i : pthread_t) : M stop_point :=
  emit MutexLock ;;
  em ← get ;
  stop_loop_test (set_next (_thread_set em) i).

Fixpoint stop_resume (fuel : nat) (p : stop_point) : M bool :=
  match p with
  | StopReturned r => mret r
  | StopJoining i =>
      match fuel with
      | O => mret true
      | S fuel' => p' ← stop_joined i ; stop_resume fuel' p'
      end
  end.

(** [bool EventManager::stop()] as run by thread [self] when nothing else
    touches the object while it waits in its joins.  The join loop visits
    each handle once, so the size of the registry bounds its length. *)
Definition stop (self : pthread_t) : M bool :=
  em ← get ;
  p ← stop_enter self ;
  stop_resume (size (_thread_set em)) p.

(** The warnings of [stop] about what is still attached. *)
Definition stop_warnings (em : EventManager) : list effect :=
  (if bool_decide (_fds em = ∅) then [] else [DLogWarning AttachedFds]) ++
  (if bool_decide (_tasks em = []) then [] else [DLogWarning PendingTasks]).

(** The joins of [stop]: the mutex is released before each join and taken
    again after it. *)
Definition join_all (ts : list pthread_t) : list effect :=
  flat_map (λ t, [MutexUnlock; ThreadJoin t; MutexLock]) ts.

(** The reactor after a successful [stop]. *)
Definition stopped (em : EventManager) : EventManager :=
  mkEventManager false (_epoll_fd em) (_event_fd em) ∅ [] ∅.

Definition is_eventfd_write (e : effect) : bool :=
  match e with EventfdWrite _ _ => true | _ => false end.
Definition is_epoll_ctl (e : effect) : bool :=
  match e with EpollCtl _ _ _ _ => true | _ => false end.

(** ** Timers and watches *)

(** [void EventManager::enqueue(function<void()> f, WallTime when)]. *)
Definition enqueue (fn : TaskFn) (w : WallTime) : M unit :=
  emit MutexLock ;;
  em ← get ;
  let t := mkTask w fn in
  let oldwhen : WallTime :=
    match head (_tasks em) with None => (-1)%Q | Some front => when front end in
  modify (set_tasks (_tasks em ++ [t])) ;;
  modify (λ em, set_tasks (push_heap compareTasks (_tasks em)) em) ;;
  em ← get ;
  when_ (match head (_tasks em) with
         | Some front => negb (Qeq_bool oldwhen (when front))
         | None => false
         end)
    (emit (EventfdWrite (_event_fd em) 1)) ;;
  emit MutexUnlock.

(** [bool EventManager::watchFd(int fd, int flags, function<void(int)> f)]. *)
Definition watchFd (fd flags : Z) (cb : FdFn) : M bool :=
  emit MutexLock ;;
  em ← get ;
  let key := (fd, flags) in
  if bool_decide (is_Some (_fds em !! key)) then
    emit MutexUnlock ;; mret false
  else
    emit (EpollCtl (_epoll_fd em) EPOLL_CTL_ADD fd
            (mkEvent (uint32_of_int flags) fd)) ;;
    modify (set_fds (<[key := cb]> (_fds em))) ;;
    emit (EventfdWrite (_event_fd em) 1) ;;
    emit MutexUnlock ;;
    mret true.

(** [bool EventManager::removeFd(int fd, int flags)]. *)
Definition removeFd (fd flags : Z) : M bool :=
  emit MutexLock ;;
  em ← get ;
  let key := (fd, flags) in
  if bool_decide (_fds em !! key = None) then
    emit MutexUnlock ;; mret false
  else
    emit (EpollCtl (_epoll_fd em) EPOLL_CTL_DEL fd
            (mkEvent (uint32_of_int flags) fd)) ;;
    modify (set_fds (delete key (_fds em))) ;;
    emit MutexUnlock ;;
    mret true.

(** ** The worker loop [thread_main]

    A worker holds the mutex except while it is blocked in [epoll_wait] and
    while it runs a callback.  Its code is therefore cut at these points:
    a [pc] says where the worker is while the mutex is released, and
    [worker_step] runs it from the next [pthread_mutex_lock] up to the next
    release. *)

Definition kMaxEvents : Z := 32%Z.
Definition kEpollDefaultWait : Z := 10000%Z.

(** *** [double] arithmetic

    [a - b] and [a * b] on two doubles are the IEEE 754 binary64
    operations: the exact result rounded to the nearest double, a tie going
    to the double whose significand is even, and an infinity when the
    rounded magnitude reaches [2^1024]. *)

(** [floor(log2 x)] for [x > 0]. *)
Definition Qlog2 (x : Q) : Z :=
  let e := (Z.log2 (Qnum x) - Z.log2 (Z.pos (Qden x)))%Z in
  if Qle_bool (2 ^ e) x then e else (e - 1)%Z.

(** The nearest integer, a tie going to the even one. *)
Definition Qround_even (y : Q) : Z :=
  let f := Qfloor y in
  match Qcompare (y - inject_Z f) (1 # 2) with
  | Lt => f
  | Eq => if Z.even f then f else (f + 1)%Z
  | Gt => (f + 1)%Z
  end.

(** The spacing of the doubles at [x]: [2^(e-52)] where
    [2^e <= |x| < 2^(e+1)] (53 bits of significand), and [2^-1074], the
    spacing of the subnormal numbers, below [2^-1022]. *)
Definition double_ulp (x : Q) : Q :=
  (2 ^ Z.max (Qlog2 (Qabs x) - 52) (-1074))%Q.

(** The double nearest to [x]; [None] stands for an infinity. *)
Definition round_double (x : Q) : option Q :=
  let r := (inject_Z (Qround_even (x / double_ulp x)) * double_ulp x)%Q in
  if Qle_bool (2 ^ 1024) (Qabs r) then None else Some (Qred r).

Definition double_sub (a b : WallTime) : option WallTime := round_double (a - b).
Definition double_mul (a b : WallTime) : option WallTime := round_double (a * b).

(** The value of a float of [SpecFloat], the Standard Library's
    specification of IEEE 754 arithmetic, against which [round_double] is
    run below. *)
Definition Q_of_spec_float (x : spec_float) : option Q :=
  match x with
  | S754_zero _ => Some 0%Q
  | S754_finite s m e =>
      Some (Qred ((if s then -1 else 1) * inject_Z (Z.pos m) * 2 ^ e))
  | S754_infinity _ | S754_nan => None
  end.

(** [static_cast<int>(x)] of a [double]: the fractional part is discarded;
    the conversion is undefined when the result does not fit an [int]. *)
Definition Qtrunc (x : Q) : Z := (Qnum x ÷ Z.pos (Qden x))%Z.
Definition static_cast_int (x : Q) : option Z :=
  let z := Qtrunc x in
  if bool_decide (INT_MIN ≤ z ≤ INT_MAX)%Z then Some z else None.

(** The wait timeout of one iteration,
    [static_cast<int>((_tasks.front().when - currentTime())*1000)] with a
    negative result replaced by 0; [now] is the value of [currentTime()],
    read only when there is a task.  The cast of an infinity is undefined
    as that of any other value outside [int]. *)
Definition wait_timeout (tasks : list Task) (now : WallTime) : option Z :=
  match head tasks with
  | Some front =>
      d ← double_sub (when front) now ;
      ms ← double_mul d 1000 ;
      timeout ← static_cast_int ms ;
      Some (if (timeout <? 0)%Z then 0%Z else timeout)
  | None => Some kEpollDefaultWait
  end.

Inductive pc : Type :=
| Spawned                                   (* created by pthread_create, about to enter thread_main *)
| InEpollWait (timeout : Z)                 (* blocked in epoll_wait(_epoll_fd, events, kMaxEvents, timeout) *)
| InFdCallback (pending : list epoll_event) (* running f(events[i].events); pending = events[i+1 .. ret) *)
| InTaskCallback                            (* running t.f() *)
| Returned                                  (* thread_main has returned *)
| Undefined.                                (* undefined behaviour was reached *)

(** What [epoll_wait] hands back: the ready events ([ret >= 0] of them), or
    [ret < 0] with [errno]. *)
Inductive wait_result : Type :=
| WaitReady (evs : list epoll_event)
| WaitFailed (errno : Z).

(** The inputs of one step: the result of the wait the worker wakes from
    (used in [InEpollWait] only) and the values [currentTime()] returns at
    its two call sites, the test of the timer loop and the timeout. *)
Record input : Type := mkInput {
  waited : wait_result;
  now_due : WallTime;
  now_wait : WallTime
}.

(** [while (_is_running) { compute timeout; unlock; epoll_wait ... }] and,
    once the flag is down, the tail of [thread_main]. *)
Definition loop_head (now : WallTime) : M pc :=
  em ← get ;
  if _is_running em then
    match wait_timeout (_tasks em) now with
    | Some timeout =>
        emit MutexUnlock ;;
        emit (EpollWait (_epoll_fd em) kMaxEvents timeout) ;;
        mret (InEpollWait timeout)
    | None => mret Undefined
    end
  else
    emit (EventfdWrite (_event_fd em) 1) ;;
    emit MutexUnlock ;;
    mret Returned.

(** [while (!_tasks.empty() && _tasks.front().when <= currentTime())]: one
    due task is popped and run with the mutex released; otherwise the
    worker goes back to the head of the main loop. *)
Definition drain (inp : input) : M pc :=
  em ← get ;
  match head (_tasks em) with
  | Some t =>
      if Qle_bool (when t) (now_due inp) then
        modify (set_tasks (pop_heap compareTasks (_tasks em))) ;;
        modify (λ em, set_tasks (pop_back (_tasks em)) em) ;;
        emit MutexUnlock ;;
        emit (CallTask t) ;;
        mret InTaskCallback
      else loop_head (now_wait inp)
  | None => loop_head (now_wait inp)
  end.

(** [for (int i = 0; i < ret; i++)] over the events not yet handled. *)
Fixpoint dispatch (evs : list epoll_event) (inp : input) : M pc :=
  match evs with
  | [] => drain inp
  | ev :: pending =>
      em ← get ;
      let key := (data_fd ev, int_of_uint32 (events ev)) in
      match _fds em !! key with
      | Some cb =>
          emit MutexUnlock ;;
          emit (CallFd cb (int_of_uint32 (events ev))) ;;
          mret (InFdCallback pending)
      | None =>
          if bool_decide (data_fd ev = _event_fd em) then
            emit (EventfdRead (_event_fd em)) ;;
            dispatch pending inp
          else dispatch pending inp
      end
  end.

(** One step of a worker: from re-acquiring the mutex to releasing it. *)
Definition worker_step (inp : input) (p : pc) : M pc :=
  match p with
  | Spawned => emit MutexLock ;; loop_head (now_wait inp)
  | InEpollWait _ =>
      emit MutexLock ;;
      match waited inp with
      | WaitFailed errno =>
          when_ (negb (bool_decide (errno = EINTR))) (emit (LogError errno)) ;;
          loop_head (now_wait inp)
      | WaitReady evs => dispatch evs inp
      end
  | InFdCallback pending => emit MutexLock ;; dispatch pending inp
  | InTaskCallback => emit MutexLock ;; drain inp
  | Returned => mret Returned
  | Undefined => mret Undefined
  end.

(** A worker running alone: one step per input, callbacks that leave the
    reactor untouched. *)
Fixpoint thread_main (inps : list input) (p : pc) : M pc :=
  match inps with
  | [] => mret p
  | inp :: inps' => p' ← worker_step inp p ; thread_main inps' p'
  end.

(** The tasks run by a trace, in order. *)
Definition fired (tr : list effect) : list Task :=
  omap (λ e, match e with CallTask t => Some t | _ => None end) tr.

(** The callbacks, of either kind, a trace invokes. *)
Definition is_call (e : effect) : bool :=
  match e with CallTask _ | CallFd _ _ => true | _ => false end.

(** ** The reactor and its threads

    [reactor] is the shared object, [workers] the threads created by
    [start] with their program points, [stoppers] the threads inside
    [stop], each blocked in the join of the recorded worker.  A step of
    the system is one critical section of one thread; the trace of a run
    lists the effects in the order of these critical sections, a callback
    call standing right after the release of the mutex that precedes
    it. *)
Record World : Type := mkWorld {
  reactor : EventManager;
  workers : gmap pthread_t pc;
  stoppers : gmap pthread_t pthread_t
}.

Inductive action : Type :=
| CallStart (self : pthread_t) (num_threads : Z) (new_thread : nat → pthread_t)
| CallStop (self : pthread_t)
| JoinReturns (self : pthread_t)
| CallEnqueue (self : pthread_t) (fn : TaskFn) (w : WallTime)
| CallWatchFd (self : pthread_t) (fd flags : Z) (cb : FdFn)
| CallRemoveFd (self : pthread_t) (fd flags : Z)
| WorkerRuns (t : pthread_t) (inp : input).

(** A thread may call into the reactor when it is not blocked in [stop]
    and, if it is a worker, when it is inside a callback. *)
Definition may_call (self : pthread_t) (w : World) : bool :=
  bool_decide (stoppers w !! self = None) &&
  match workers w !! self with
  | None | Some (InFdCallback _) | Some InTaskCallback => true
  | Some _ => false
  end.

(** The handles of the threads [pthread_create] makes are new and differ
    from each other and from the caller. *)
Definition fresh_threads (self : pthread_t) (n : nat)
    (new_thread : nat → pthread_t) (w : World) : bool :=
  let ids := new_thread <$> seq 0 n in
  bool_decide (NoDup ids) &&
  forallb (λ t, bool_decide (workers w !! t = None) &&
                bool_decide (stoppers w !! t = None) &&
                bool_decide (t ≠ self)) ids.

Definition spawn_all (n : nat) (new_thread : nat → pthread_t)
    (ws : gmap pthread_t pc) : gmap pthread_t pc :=
  foldr (λ t ws, <[t := Spawned]> ws) ws (new_thread <$> seq 0 n).

Definition after_stop (self : pthread_t) (p : stop_point)
    (st : gmap pthread_t pthread_t) : gmap pthread_t pthread_t :=
  match p with
  | StopReturned _ => delete self st
  | StopJoining i => <[self := i]> st
  end.

Definition world_step (a : action) (w : World) : option (World * list effect) :=
  match a with
  | CallStart self n new_thread =>
      if may_call self w && fresh_threads self (Z.to_nat n) new_thread w then
        let '(r, em, tr) := start self n new_thread (reactor w) in
        Some (mkWorld em
                (if r then spawn_all (Z.to_nat n) new_thread (workers w)
                 else workers w)
                (stoppers w), tr)
      else None
  | CallStop self =>
      if may_call self w then
        let '(p, em, tr) := stop_enter self (reactor w) in
        Some (mkWorld em (workers w) (after_stop self p (stoppers w)), tr)
      else None
  | JoinReturns self =>
      match stoppers w !! self with
      | Some i =>
          match workers w !! i with
          | Some Returned =>
              let '(p, em, tr) := stop_joined i (reactor w) in
              Some (mkWorld em (delete i (workers w))
                      (after_stop self p (stoppers w)), tr)
          | _ => None
          end
      | None => None
      end
  | CallEnqueue self fn t =>
      if may_call self w then
        let '(_, em, tr) := enqueue fn t (reactor w) in
        Some (mkWorld em (workers w) (stoppers w), tr)
      else None
  | CallWatchFd self fd flags cb =>
      if may_call self w then
        let '(_, em, tr) := watchFd fd flags cb (reactor w) in
        Some (mkWorld em (workers w) (stoppers w), tr)
      else None
  | CallRemoveFd self fd flags =>
      if may_call self w then
        let '(_, em, tr) := removeFd fd flags (reactor w) in
        Some (mkWorld em (workers w) (stoppers w), tr)
      else None
  | WorkerRuns t inp =>
      match workers w !! t with
      | Some Returned | Some Undefined | None => None
      | Some p =>
          let '(p', em, tr) := worker_step inp p (reactor w) in
          Some (mkWorld em (<[t := p']> (workers w)) (stoppers w), tr)
      end
  end.

(** A run of the whole system: the actions taken, with the trace. *)
Fixpoint world_run (acts : list action) (w : World)
    : option (World * list effect) :=
  match acts with
  | [] => Some (w, [])
  | a :: acts' =>
      '(w1, tr1) ← world_step a w ;
      '(w2, tr2) ← world_run acts' w1 ;
      Some (w2, tr1 ++ tr2)
  end.

Definition initial_world (epoll_fd event_fd : Z) : World :=
  mkWorld (EventManager_new epoll_fd event_fd).1 ∅ ∅.

Inductive reachable : World → Prop :=
| reachable_initial epoll_fd event_fd :
    reachable (initial_world epoll_fd event_fd)
| reachable_step a w w' tr :
    reachable w → world_step a w = Some (w', tr) → reachable w'.

(** ** Scenarios *)

(** A sequence of [enqueue(f, when)] calls, in order. *)
Fixpoint schedule_all (calls : list (TaskFn * WallTime)) : M unit :=
  match calls with
  | [] => mret tt
  | (fn, w) :: calls' => enqueue fn w ;; schedule_all calls'
  end.



(** What a step of a worker does to the timer heap: nothing, or it pops
    the root, which is due, and runs it. *)
Definition quiet_or_pop (inp : input) (em : EventManager)
    (r : pc * EventManager * list effect) : Prop :=
  (fired (trace_of r) = [] ∧ state_of r = em) ∨
  (∃ t, head (_tasks em) = Some t ∧ (when t <= now_due inp)%Q ∧
        fired (trace_of r) = [t] ∧
        result r = InTaskCallback ∧
        state_of r =
          set_tasks (pop_back (pop_heap compareTasks (_tasks em))) em).

(** Actions that create no worker. *)
Definition no_spawn (a : action) : Prop :=
  match a with
  | CallStart _ n _ => (n ≤ 0)%Z
  | _ => True
  end.


(** ** Destruction

    [EventManager::~EventManager()], run by thread [self]: [stop()] (its
    result is not looked at), then both descriptors are closed and set to
    [-1] and the mutex is destroyed.  These last calls are not among the
    [effect]s of the member functions, so the trace of the destructor has
    its own type. *)
Inductive dtor_effect : Type :=
| Member (e : effect)
| Close (fd : Z)                              (* close(fd) *)
| MutexDestroy.                               (* pthread_mutex_destroy(&_mutex) *)

Definition set_descriptors (epoll_fd event_fd : Z) (em : EventManager)
    : EventManager :=
  mkEventManager (_is_running em) epoll_fd event_fd (_fds em) (_tasks em)
    (_thread_set em).

Definition EventManager_destroy (self : pthread_t) (em : EventManager)
    : EventManager * list dtor_effect :=
  let '(_, em1, tr) := stop self em in
  (set_descriptors (-1) (-1) em1,
   (Member <$> tr) ++
   [Close (_event_fd em1); Close (_epoll_fd em1); MutexDestroy]).

(** ** Disciplines checked on traces *)

(** Calls during which the caller is blocked or runs foreign code. *)
Definition blocks (e : effect) : bool :=
  match e with
  | EpollWait _ _ _ | ThreadJoin _ | CallFd _ _ | CallTask _ => true
  | _ => false
  end.

(** Replays a trace of one thread against the mutex: [held] says whether
    the thread holds it.  Locking twice, unlocking without holding,
    blocking while holding and touching the shared descriptors or the
    registry without holding are refused ([None]); otherwise the final
    state of the mutex is returned. *)
Fixpoint mutex_after (held : bool) (tr : list effect) : option bool :=
  match tr with
  | [] => Some held
  | MutexLock :: tr' => if held then None else mutex_after true tr'
  | MutexUnlock :: tr' => if held then mutex_after false tr' else None
  | e :: tr' =>
      if blocks e then (if held then None else mutex_after false tr')
      else (if held then mutex_after true tr' else None)
  end.

Definition is_undefined (p : pc) : bool :=
  match p with Undefined => true | _ => false end.

(** The system calls of a reactor built on [epoll_fd] and [event_fd]. *)
Definition syscall_ok (epoll_fd event_fd : Z) (e : effect) : Prop :=
  match e with
  | EpollWait epfd maxevents timeout =>
      epfd = epoll_fd ∧ maxevents = kMaxEvents ∧ (0 ≤ timeout ≤ INT_MAX)%Z
  | EventfdWrite fd v => fd = event_fd ∧ v = 1%Z
  | EventfdRead fd => fd = event_fd
  | EpollCtl epfd _ _ _ => epfd = epoll_fd
  | _ => True
  end.

(** The tasks the actions of a run schedule, in order. *)
Definition enqueued_by (a : action) : list Task :=
  match a with
  | CallEnqueue _ fn w => [mkTask w fn]
  | _ => []
  end.
Definition enqueued (acts : list action) : list Task :=
  flat_map enqueued_by acts.

Definition no_stop (a : action) : Prop :=
  match a with
  | CallStop _ => False
  | _ => True
  end.

(** Actions that neither schedule a task nor register a watch. *)
Definition no_register (a : action) : Prop :=
  match a with
  | CallEnqueue _ _ _ | CallWatchFd _ _ _ _ => False
  | _ => True
  end.



(** A result whose trace calls the system on the descriptors of [em] only
    and whose state has the same descriptors as [em]. *)
Definition keeps_descriptors (em : EventManager)
    {A} (r : A * EventManager * list effect) : Prop :=
  Forall (syscall_ok (_epoll_fd em) (_event_fd em)) (trace_of r) ∧
  _epoll_fd (state_of r) = _epoll_fd em ∧
  _event_fd (state_of r) = _event_fd em.

(** ** Small runs *)

Example push_heap_nat :
  push_heap Nat.ltb [9; 5; 7; 1; 8] = [9; 8; 7; 1; 5].
Proof. reflexivity. Qed.

Example pop_heap_nat :
  pop_heap Nat.ltb [9; 8; 7; 1; 5] = [8; 5; 7; 1; 9].
Proof. reflexivity. Qed.

Example pop_heap_nat_even :
  pop_heap Nat.ltb [9; 8; 7; 1; 5; 6; 2] = [8; 5; 7; 1; 2; 6; 9].
Proof. reflexivity. Qed.

(** [round_double] and the binary64 operations of [SpecFloat] (53 bits of
    precision, exponents below 1024): a product that rounds up to a whole
    number, an exact difference, a quotient that is not a dyadic number,
    an overflow, and two ties. *)
Example double_mul_SFmul :
  double_mul (5188146770730811 # 576460752303423488) 1000 =
    Q_of_spec_float (SFmul 53 1024 (S754_finite false 5188146770730811 (-59))
                       (S754_finite false 1000 0)) ∧
  double_mul (5188146770730811 # 576460752303423488) 1000 = Some 9%Q.
Proof. split; vm_compute; reflexivity. Qed.

Example double_sub_SFsub :
  double_sub 1702592000 1700000000 =
    Q_of_spec_float (SFsub 53 1024 (S754_finite false 1702592000 0)
                       (S754_finite false 1700000000 0)) ∧
  double_sub 1702592000 1700000000 = Some 2592000%Q.
Proof. split; vm_compute; reflexivity. Qed.

Example round_double_SFdiv :
  round_double (1 # 3) =
    Q_of_spec_float (SFdiv 53 1024 (S754_finite false 1 0) (S754_finite false 3 0)) ∧
  round_double (1 # 3) = Some (6004799503160661 # 18014398509481984)%Q.
Proof. split; vm_compute; reflexivity. Qed.

Example double_mul_overflow :
  double_mul (2 ^ 1000) (2 ^ 24) =
    Q_of_spec_float (SFmul 53 1024 (S754_finite false (2 ^ 1000) 0)
                       (S754_finite false (2 ^ 24) 0)) ∧
  double_mul (2 ^ 1000) (2 ^ 24) = None.
Proof. split; vm_compute; reflexivity. Qed.

Example round_double_ties :
  round_double (2 ^ 53 + 1) = Some (2 ^ 53)%Q ∧
  round_double (2 ^ 53 + 3) = Some (2 ^ 53 + 4)%Q.
Proof. split; vm_compute; reflexivity. Qed.

(** * Part II: properties *)

(** ** Index arithmetic and list updates *)

Lemma parent_spec i : 0 < i → i = 2 * parent i + 1 ∨ i = 2 * parent i + 2.
Proof.
  intros Hi. unfold parent.
  pose proof (Nat.div_mod_eq (i - 1) 2) as E.
  pose proof (Nat.mod_upper_bound (i - 1) 2) as B.
  lia.
Qed.
Lemma parent_lt i : 0 < i → parent i < i.
Proof. intros Hi. pose proof (parent_spec i Hi). lia. Qed.
Lemma parent_le i : parent i ≤ i.
Proof. destruct i; [done|]. apply Nat.lt_le_incl, parent_lt. lia. Qed.
Lemma parent_children i h : 0 < i → (parent i = h ↔ i = 2 * h + 1 ∨ i = 2 * h + 2).
Proof. intros Hi. pose proof (parent_spec i Hi). lia. Qed.

Section list_facts.
Context {A : Type}.
Implicit Types l : list A.

Lemma insert_cons_Permutation l i x y :
  l !! i = Some x → x :: <[i := y]> l ≡ₚ y :: l.
Proof.
  revert i. induction l as [|a l IH]; intros [|i] Hi; simplify_eq/=.
  - apply Permutation_swap.
  - rewrite (Permutation_swap a x), (IH _ Hi). apply Permutation_swap.
Qed.

Lemma move_hole_Permutation l h c x v :
  h < length l → h ≠ c → l !! c = Some x →
  <[c := v]> (<[h := x]> l) ≡ₚ <[h := v]> l.
Proof.
  intros Hh Hne Hc.
  destruct (lookup_lt_is_Some_2 l h Hh) as [a Ha].
  apply (Permutation_cons_inv (a:=x)), (Permutation_cons_inv (a:=a)).
  rewrite (insert_cons_Permutation (<[h := x]> l) c x v)
    by (by rewrite list_lookup_insert_ne).
  rewrite (Permutation_swap v a), (insert_cons_Permutation l h a x Ha).
  rewrite (Permutation_swap x a), (insert_cons_Permutation l h a v Ha).
  apply Permutation_swap.
Qed.
End list_facts.

Section std_heap_facts.
Context {A : Type} (comp : A → A → bool).
Hypothesis comp_asym : ∀ x y, comp x y = true → comp y x = false.
Hypothesis comp_ntrans :
  ∀ x y z, comp x y = false → comp y z = false → comp x z = false.

Lemma push_heap_loop_heap fuel v h len value :
  h ≤ fuel → h < len → len ≤ length v →
  hole_heap comp v h len →
  (∀ i y, 0 < i < len → parent i = h → v !! i = Some y → comp value y = false) →
  heap_upto comp (push_heap_loop comp fuel v h 0 value) len.
Proof.
  revert v h. induction fuel as [|fuel IH]; intros v h Hf Hh Hlen [H1 H2] H3; simpl.
  - assert (h = 0) by lia; subst h.
    intros i x y Hi Hy Hx.
    rewrite list_lookup_insert_ne in Hy by lia.
    destruct (decide (parent i = 0)) as [E|E].
    + rewrite E, list_lookup_insert_eq in Hx by lia. simplify_eq. eapply H3; eauto.
    + rewrite list_lookup_insert_ne in Hx by done. eapply H1; eauto. lia.
  - destruct (v !! parent h) as [p|] eqn:Hp.
    2:{ apply lookup_ge_None in Hp. pose proof (parent_le h). lia. }
    destruct (bool_decide (0 < h) && comp p value) eqn:Hc.
    + apply andb_prop in Hc as [Hh0 Hcp]. apply bool_decide_eq_true in Hh0.
      pose proof (parent_lt h Hh0) as Hlt.
      apply IH; [lia | lia | by rewrite length_insert | | ].
      * split.
        -- intros i x y Hi Hne Hpne Hy Hx.
           destruct (decide (i = h)) as [->|Hih]; [done|].
           rewrite list_lookup_insert_ne in Hy by done.
           destruct (decide (parent i = h)) as [E|E].
           ++ rewrite E, list_lookup_insert_eq in Hx by lia. simplify_eq.
              eapply (H2 i); eauto.
           ++ rewrite list_lookup_insert_ne in Hx by done. eapply (H1 i); eauto.
        -- intros i x y Hi Hp0 Hpi Hy Hx.
           pose proof (parent_lt (parent h) Hp0).
           rewrite list_lookup_insert_ne in Hx by lia.
           assert (comp x p = false) as Hxp by (eapply (H1 (parent h)); eauto; lia).
           destruct (decide (i = h)) as [->|Hih].
           ++ rewrite list_lookup_insert_eq in Hy by lia. by simplify_eq.
           ++ rewrite list_lookup_insert_ne in Hy by done.
              eapply comp_ntrans; [done|]. eapply (H1 i); rewrite ?Hpi; eauto; lia.
      * intros i y Hi Hpi Hy.
        destruct (decide (i = h)) as [->|Hih].
        -- rewrite list_lookup_insert_eq in Hy by lia. simplify_eq. by apply comp_asym.
        -- rewrite list_lookup_insert_ne in Hy by done.
           eapply comp_ntrans; [by apply comp_asym|]. eapply (H1 i); rewrite ?Hpi; eauto; lia.
    + intros i x y Hi Hy Hx.
      destruct (decide (i = h)) as [->|Hih].
      * rewrite list_lookup_insert_eq in Hy by lia. simplify_eq.
        pose proof (parent_lt h).
        rewrite list_lookup_insert_ne in Hx by lia. simplify_eq.
        apply andb_false_iff in Hc as [Hc|Hc]; [|done].
        apply bool_decide_eq_false in Hc. lia.
      * rewrite list_lookup_insert_ne in Hy by done.
        destruct (decide (parent i = h)) as [E|E].
        -- rewrite E, list_lookup_insert_eq in Hx by lia. simplify_eq. eapply H3; eauto.
        -- rewrite list_lookup_insert_ne in Hx by done. eapply H1; eauto.
Qed.

Lemma push_heap_loop_length fuel v h top value :
  length (push_heap_loop comp fuel v h top value) = length v.
Proof.
  revert v h. induction fuel as [|fuel IH]; intros v h; simpl.
  - by rewrite length_insert.
  - destruct (v !! parent h) as [p|]; [|by rewrite length_insert].
    destruct (_ && _); [|by rewrite length_insert].
    by rewrite IH, length_insert.
Qed.

Lemma push_heap_loop_above fuel v h top value i :
  h < i → push_heap_loop comp fuel v h top value !! i = v !! i.
Proof.
  revert v h. induction fuel as [|fuel IH]; intros v h Hi; simpl.
  - apply list_lookup_insert_ne; lia.
  - destruct (v !! parent h) as [p|]; [|apply list_lookup_insert_ne; lia].
    destruct (_ && _); [|apply list_lookup_insert_ne; lia].
    pose proof (parent_le h).
    rewrite IH by lia. apply list_lookup_insert_ne; lia.
Qed.

Lemma push_heap_loop_Permutation fuel v h top value :
  h < length v →
  push_heap_loop comp fuel v h top value ≡ₚ <[h := value]> v.
Proof.
  revert v h. induction fuel as [|fuel IH]; intros v h Hh; simpl; [done|].
  destruct (v !! parent h) as [p|] eqn:Hp; [|done].
  destruct (bool_decide (top < h) && comp p value) eqn:Hc; [|done].
  apply andb_prop in Hc as [Hh0 _]. apply bool_decide_eq_true in Hh0.
  assert (0 < h) as Hpos by lia. pose proof (parent_lt h Hpos).
  rewrite IH by (rewrite length_insert; lia).
  apply move_hole_Permutation; [done | lia | done].
Qed.

Lemma hole_heap_descend v h len c cv :
  h < c < len → len ≤ length v → parent c = h → v !! c = Some cv →
  (∀ i y, 0 < i < len → parent i = h → i ≠ c → v !! i = Some y →
     comp cv y = false) →
  hole_heap comp v h len → hole_heap comp (<[h := cv]> v) c len.
Proof.
  intros Hc Hlen Hpc Hcv Hsib [H1 H2]. split.
  - intros i x y Hi Hne Hpne Hy Hx.
    destruct (decide (i = h)) as [Hih|Hih].
    + rewrite Hih in Hy, Hx.
      rewrite list_lookup_insert_eq in Hy by lia.
      assert (y = cv) as -> by congruence.
      pose proof (parent_lt h).
      rewrite list_lookup_insert_ne in Hx by lia.
      eapply (H2 c); eauto; lia.
    + rewrite list_lookup_insert_ne in Hy by done.
      destruct (decide (parent i = h)) as [E|E].
      * rewrite E, list_lookup_insert_eq in Hx by lia.
        assert (x = cv) as -> by congruence.
        eapply Hsib; eauto.
      * rewrite list_lookup_insert_ne in Hx by done. eapply (H1 i); eauto.
  - intros i x y Hi Hc0 Hpi Hy Hx.
    rewrite Hpc, list_lookup_insert_eq in Hx by lia.
    assert (x = cv) as -> by congruence.
    pose proof (parent_lt i).
    rewrite list_lookup_insert_ne in Hy by lia.
    eapply (H1 i); rewrite ?Hpi; eauto; lia.
Qed.

Lemma adjust_heap_loop_spec fuel v h len v' h' :
  len ≤ length v → h < len → hole_heap comp v h len →
  adjust_heap_loop comp fuel v h len = (v', h') →
  hole_heap comp v' h' len ∧ length v' = length v ∧ h ≤ h' < len ∧
  (len - h ≤ fuel → ¬ h' < (len - 1) / 2) ∧
  (∀ value, <[h' := value]> v' ≡ₚ <[h := value]> v) ∧
  (∀ i, len ≤ i → v' !! i = v !! i).
Proof.
  revert v h. induction fuel as [|fuel IH]; intros v h Hlen Hh Hhole Heq;
    cbn [adjust_heap_loop] in Heq.
  { simplify_eq. split_and!; try done; try lia. }
  pose proof (Nat.div_mod_eq (len - 1) 2) as Ediv.
  pose proof (Nat.mod_upper_bound (len - 1) 2) as Bdiv.
  case_bool_decide as Hlt.
  2:{ simplify_eq. split_and!; try done; try lia. }
  destruct (lookup_lt_is_Some_2 v (2 * (h + 1))) as [r Hr]; [lia|].
  destruct (lookup_lt_is_Some_2 v (2 * (h + 1) - 1)) as [l Hl]; [lia|].
  rewrite Hr, Hl in Heq.
  remember (if comp r l then 2 * (h + 1) - 1 else 2 * (h + 1)) as c eqn:Ec.
  remember (if comp r l then l else r) as cv eqn:Ecv.
  assert (v !! c = Some cv) as Hc by (subst c cv; by destruct (comp r l)).
  assert (c = 2 * h + 1 ∨ c = 2 * h + 2) as Hcidx
    by (subst c; destruct (comp r l); lia).
  assert (parent c = h) as Hpc by (apply parent_children; lia).
  apply IH in Heq as (Hhole' & Hlen' & Hh' & Hfuel & Hperm & Habove);
    [| by rewrite length_insert | lia |].
  - rewrite length_insert in Hlen'.
    split_and!; try done; try lia.
    + intros value. rewrite Hperm. apply move_hole_Permutation; [lia | lia | done].
    + intros i Hi. rewrite Habove by done. apply list_lookup_insert_ne; lia.
  - apply hole_heap_descend; try done; try lia.
    intros i y Hi Hpi Hne Hy. apply parent_children in Hpi; [|lia].
    destruct (comp r l) eqn:Hrl; subst c cv.
    + assert (i = 2 * (h + 1)) by lia. subst i. simplify_eq. by apply comp_asym.
    + assert (i = 2 * (h + 1) - 1) by lia. subst i. by simplify_eq.
Qed.

Lemma adjust_heap_spec v len value :
  0 < len → len ≤ length v → hole_heap comp v 0 len →
  heap_upto comp (adjust_heap comp v 0 len value) len ∧
  length (adjust_heap comp v 0 len value) = length v ∧
  adjust_heap comp v 0 len value ≡ₚ <[0 := value]> v ∧
  (∀ i, len ≤ i → adjust_heap comp v 0 len value !! i = v !! i).
Proof.
  intros Hpos Hlen Hhole. unfold adjust_heap.
  destruct (adjust_heap_loop comp len v 0 len) as [v1 h1] eqn:Heq.
  apply adjust_heap_loop_spec in Heq
    as (Hhole1 & Hlen1 & Hh1 & Hstop & Hperm1 & Habove1); [|done..].
  specialize (Hstop ltac:(lia)).
  pose proof (Nat.div_mod_eq (len - 1) 2) as Ediv.
  pose proof (Nat.mod_upper_bound (len - 1) 2) as Bdiv.
  pose proof (Nat.div_mod_eq (len - 2) 2) as Ediv2.
  pose proof (Nat.mod_upper_bound (len - 2) 2) as Bdiv2.
  assert (∃ v2 h2,
    (if Nat.even len && bool_decide (2 ≤ len)
        && bool_decide (h1 = (len - 2) / 2)
     then match v1 !! (2 * (h1 + 1) - 1) with
          | Some l => (<[h1 := l]> v1, 2 * (h1 + 1) - 1)
          | None => (v1, h1)
          end
     else (v1, h1)) = (v2, h2) ∧
    hole_heap comp v2 h2 len ∧ length v2 = length v ∧ h2 < len ∧ len ≤ 2 * h2 + 1 ∧
    (∀ x, <[h2 := x]> v2 ≡ₚ <[0 := x]> v) ∧
    (∀ i, len ≤ i → v2 !! i = v !! i)) as (v2 & h2 & -> & Hhole2 & Hlen2 & Hh2 & Hleaf & Hperm2 & Habove2).
  { destruct (Nat.even len && bool_decide (2 ≤ len)
              && bool_decide (h1 = (len - 2) / 2)) eqn:Hcase.
    - apply andb_prop in Hcase as [Hcase Hh]. apply andb_prop in Hcase as [Hev H2].
      apply bool_decide_eq_true in Hh, H2.
      apply Nat.even_spec in Hev as [k Hk].
      assert (2 * (h1 + 1) - 1 = len - 1) as Hidx by lia.
      destruct (lookup_lt_is_Some_2 v1 (2 * (h1 + 1) - 1)) as [l Hl]; [lia|].
      rewrite Hl. eexists _, _. split; [done|].
      split_and!; try (rewrite ?length_insert; lia).
      + apply hole_heap_descend; try done; try lia.
        * apply parent_children; lia.
        * intros i y Hi Hpi Hne Hy. apply parent_children in Hpi; lia.
      + intros x. rewrite <- Hperm1. apply move_hole_Permutation; [lia | lia | done].
      + intros i Hi. rewrite list_lookup_insert_ne by lia. by apply Habove1.
    - eexists _, _. split; [done|]. split_and!; try done; try lia.
      apply andb_false_iff in Hcase as [Hcase|Hcase];
        [apply andb_false_iff in Hcase as [Hcase|Hcase]|].
      + assert (Nat.odd len = true) as Hodd
          by (rewrite <- Nat.negb_even, Hcase; done).
        apply Nat.odd_spec in Hodd as [k Hk]. lia.
      + apply bool_decide_eq_false in Hcase.
        destruct (Nat.even len) eqn:Hev.
        * apply Nat.even_spec in Hev as [k Hk]. lia.
        * assert (Nat.odd len = true) as Hodd
            by (rewrite <- Nat.negb_even, Hev; done).
          apply Nat.odd_spec in Hodd as [k Hk]. lia.
      + apply bool_decide_eq_false in Hcase.
        destruct (Nat.even len) eqn:Hev.
        * apply Nat.even_spec in Hev as [k Hk]. lia.
        * assert (Nat.odd len = true) as Hodd
            by (rewrite <- Nat.negb_even, Hev; done).
          apply Nat.odd_spec in Hodd as [k Hk]. lia. }
  split_and!.
  - apply push_heap_loop_heap; try done; try lia.
    intros i y Hi Hpi Hy. apply parent_children in Hpi; lia.
  - by rewrite push_heap_loop_length.
  - rewrite push_heap_loop_Permutation by lia. apply Hperm2.
  - intros i Hi. rewrite push_heap_loop_above by lia. by apply Habove2.
Qed.

Lemma comp_irrefl x : comp x x = false.
Proof. destruct (comp x x) eqn:E; [|done]. by rewrite (comp_asym _ _ E) in E. Qed.

Lemma is_heap_upto v : is_heap comp v ↔ heap_upto comp v (length v).
Proof.
  split; intros H i x y Hi Hy Hx; eapply (H i); eauto;
    apply lookup_lt_Some in Hy; lia.
Qed.

Lemma is_heap_nil : is_heap comp [].
Proof. intros i x y _ Hy. by rewrite lookup_nil in Hy. Qed.

Lemma push_heap_Permutation v : push_heap comp v ≡ₚ v.
Proof.
  unfold push_heap. destruct (last v) as [value|] eqn:Hlast; [|done].
  assert (v !! (length v - 1) = Some value) as Hv.
  { rewrite last_lookup in Hlast. by replace (length v - 1) with (pred (length v)) by lia. }
  pose proof (lookup_lt_Some _ _ _ Hv).
  rewrite push_heap_loop_Permutation by lia.
  by rewrite list_insert_id.
Qed.

Lemma push_heap_length v : length (push_heap comp v) = length v.
Proof. apply Permutation_length, push_heap_Permutation. Qed.

Lemma push_heap_is_heap v value :
  is_heap comp v → is_heap comp (push_heap comp (v ++ [value])).
Proof.
  intros Hv. apply is_heap_upto. rewrite push_heap_length.
  unfold push_heap. rewrite last_snoc, length_app. simpl.
  replace (length v + 1 - 1) with (length v) by lia.
  apply push_heap_loop_heap; [lia | lia | rewrite length_app; simpl; lia | |].
  - split.
    + intros i x y Hi Hne Hpne Hy Hx. pose proof (parent_le i).
      rewrite lookup_app_l in Hy, Hx by lia. eapply (Hv i); eauto; lia.
    + intros i x y Hi Hpos Hpi _ _. apply parent_children in Hpi; lia.
  - intros i y Hi Hpi _. apply parent_children in Hpi; lia.
Qed.

Lemma pop_heap_spec v root :
  head v = Some root → is_heap comp v →
  is_heap comp (pop_back (pop_heap comp v)) ∧
  v ≡ₚ root :: pop_back (pop_heap comp v).
Proof.
  intros Hroot Hv. unfold pop_heap, pop_back.
  assert (v !! 0 = Some root) as H0 by (by rewrite <- head_lookup).
  pose proof (lookup_lt_Some _ _ _ H0) as Hlen.
  case_bool_decide as Hn.
  2:{ destruct v as [|a [|b v]]; simplify_eq/=; [|lia].
      split; [apply is_heap_nil | done]. }
  destruct (last v) as [value|] eqn:Hlast.
  2:{ apply last_None in Hlast. subst v. done. }
  rewrite Hroot.
  assert (v !! (length v - 1) = Some value) as Hlastv.
  { rewrite last_lookup in Hlast. by replace (length v - 1) with (pred (length v)) by lia. }
  set (v0 := <[length v - 1 := root]> v).
  destruct (adjust_heap_spec v0 (length v - 1) value)
    as (Hheap & Hlen' & Hperm & Habove).
  { lia. }
  { unfold v0. rewrite length_insert. lia. }
  { split.
    - intros i x y Hi _ _ Hy Hx. pose proof (parent_le i). unfold v0 in *.
      rewrite list_lookup_insert_ne in Hy, Hx by lia.
      eapply (Hv i); eauto; lia.
    - intros; lia. }
  set (r := adjust_heap comp v0 0 (length v - 1) value) in *.
  assert (length r = length v) as Hlenr by (unfold v0 in Hlen'; by rewrite length_insert in Hlen').
  assert (r !! (length v - 1) = Some root) as Hr.
  { rewrite Habove by lia. unfold v0. apply list_lookup_insert_eq. lia. }
  assert (r = take (length r - 1) r ++ [root]) as Hsplit.
  { rewrite <- (take_drop (length r - 1) r) at 1. f_equal.
    rewrite Hlenr. apply list_eq. intros [|k].
    - rewrite lookup_drop. by replace (length v - 1 + 0) with (length v - 1) by lia.
    - rewrite lookup_drop. simpl. apply lookup_ge_None. lia. }
  split.
  - apply is_heap_upto. rewrite length_take, Hlenr.
    replace (length v - 1 `min` length v) with (length v - 1) by lia.
    intros i x y Hi Hy Hx. pose proof (parent_le i).
    rewrite lookup_take_lt in Hy, Hx by lia. eapply (Hheap i); eauto; lia.
  - rewrite (Permutation_cons_append _ root), <- Hsplit, Hperm.
    unfold v0. symmetry.
    rewrite (move_hole_Permutation v (length v - 1) 0 root value) by (done || lia).
    by rewrite list_insert_id.
Qed.

Lemma is_heap_root v root :
  is_heap comp v → head v = Some root → ∀ x, x ∈ v → comp root x = false.
Proof.
  intros Hv Hroot x Hx. rewrite head_lookup in Hroot.
  apply list_elem_of_lookup in Hx as [i Hi]. revert x Hi.
  induction (lt_wf i) as [i _ IH]. intros x Hi.
  destruct (decide (i = 0)) as [->|Hne].
  { simplify_eq. apply comp_irrefl. }
  pose proof (parent_lt i ltac:(lia)) as Hlt.
  destruct (lookup_lt_is_Some_2 v (parent i)) as [p Hp].
  { apply lookup_lt_Some in Hi. lia. }
  eapply comp_ntrans; [by apply (IH (parent i))|].
  eapply (Hv i); eauto; lia.
Qed.
End std_heap_facts.

(** ** The comparator of the timer heap *)

Lemma compareTasks_false a b :
  compareTasks a b = false ↔ (when a <= when b)%Q.
Proof.
  unfold compareTasks, Qgt_bool. rewrite negb_false_iff. apply Qle_bool_iff.
Qed.

Lemma compareTasks_true a b :
  compareTasks a b = true ↔ (when b < when a)%Q.
Proof.
  unfold compareTasks, Qgt_bool. rewrite negb_true_iff, <- not_true_iff_false,
    Qle_bool_iff. split; [apply Qnot_le_lt | apply Qlt_not_le].
Qed.

Lemma compareTasks_asym a b :
  compareTasks a b = true → compareTasks b a = false.
Proof.
  rewrite compareTasks_true, compareTasks_false. apply Qlt_le_weak.
Qed.

Lemma compareTasks_ntrans a b c :
  compareTasks a b = false → compareTasks b c = false →
  compareTasks a c = false.
Proof. rewrite !compareTasks_false. apply Qle_trans. Qed.

(** ** Running the monad *)

Ltac run_m :=
  unfold mbind, M_bind, mret, M_ret, emit, get, modify, when_,
    result, state_of, trace_of; cbn [fst snd app].

Lemma enqueue_eq fn w em :
  enqueue fn w em =
    (tt,
     set_tasks (push_heap compareTasks (_tasks em ++ [mkTask w fn])) em,
     [MutexLock] ++
     (if match head (push_heap compareTasks (_tasks em ++ [mkTask w fn])) with
         | Some front =>
             negb (Qeq_bool
                     match head (_tasks em) with
                     | None => (-1)%Q
                     | Some front0 => when front0
                     end (when front))
         | None => false
         end
      then [EventfdWrite (_event_fd em) 1] else []) ++
     [MutexUnlock]).
Proof.
  unfold enqueue. run_m. destruct em as [r e1 e2 fds tasks ts]; cbn.
  destruct (head (push_heap compareTasks (tasks ++ [mkTask w fn]))); [|done].
  by destruct (negb _).
Qed.

Lemma push_heap_tasks_is_heap v t :
  is_heap compareTasks v → is_heap compareTasks (push_heap compareTasks (v ++ [t])).
Proof. apply push_heap_is_heap; [apply compareTasks_asym | apply compareTasks_ntrans]. Qed.

Lemma tasks_root_min v front t :
  is_heap compareTasks v → head v = Some front → t ∈ v →
  (when front <= when t)%Q.
Proof.
  intros Hv Hfront Ht. apply compareTasks_false.
  eapply is_heap_root; eauto using compareTasks_asym, compareTasks_ntrans.
Qed.

Lemma head_elem_of {A} (l : list A) x : head l = Some x → x ∈ l.
Proof. destruct l; intros; simplify_eq/=. left. Qed.

(** The signal of [enqueue], for a valid heap: sent exactly when the new
    deadline is earlier than the previous earliest one or, on an empty
    heap, when it differs from the placeholder [-1]. *)
Lemma enqueue_signal fn w em :
  is_heap compareTasks (_tasks em) →
  trace_of (enqueue fn w em) =
    if match head (_tasks em) with
       | None => negb (Qeq_bool w (-1))
       | Some front => Qgt_bool (when front) w
       end
    then [MutexLock; EventfdWrite (_event_fd em) 1; MutexUnlock]
    else [MutexLock; MutexUnlock].
Proof.
  intros Hheap. rewrite enqueue_eq. unfold trace_of. cbn [snd].
  set (t := mkTask w fn).
  pose proof (push_heap_tasks_is_heap _ t Hheap) as Hheap'.
  pose proof (push_heap_Permutation compareTasks (_tasks em ++ [t])) as Hperm.
  destruct (head (push_heap compareTasks (_tasks em ++ [t]))) as [nf|] eqn:Hnf.
  2:{ apply head_None in Hnf. rewrite Hnf in Hperm.
      apply Permutation_nil_l in Hperm. by destruct (_tasks em). }
  assert (nf ∈ _tasks em ++ [t]) as Hin
    by (rewrite <- Hperm; by apply head_elem_of).
  assert (when nf <= w)%Q as Hnfw.
  { apply (tasks_root_min _ nf t Hheap' Hnf). rewrite Hperm. apply elem_of_app. right. apply list_elem_of_singleton. done. }
  destruct (head (_tasks em)) as [front|] eqn:Hfront.
  - assert (when nf <= when front)%Q as Hle.
    { apply (tasks_root_min _ nf front Hheap' Hnf). rewrite Hperm.
      apply elem_of_app. left. by apply head_elem_of. }
    assert (when front <= w → when front <= when nf)%Q as Hge.
    { intros Hw. apply elem_of_app in Hin as [Hin|Hin].
      - by apply (tasks_root_min _ front nf Hheap Hfront).
      - apply list_elem_of_singleton in Hin. by subst nf. }
    unfold Qgt_bool. destruct (Qle_bool (when front) w) eqn:Hlt; cbn.
    + apply Qle_bool_iff in Hlt. specialize (Hge Hlt).
      destruct (Qeq_bool (when front) (when nf)) eqn:E; [done|].
      apply Qeq_bool_neq in E. lra.
    + destruct (Qeq_bool (when front) (when nf)) eqn:E; [|done].
      apply Qeq_bool_iff in E. rewrite <- not_true_iff_false, Qle_bool_iff in Hlt.
      lra.
  - apply head_None in Hfront. rewrite Hfront in *. cbn in Hnf. simplify_eq.
    cbn. destruct (Qeq_bool w (-1)) eqn:Hw; cbn.
    + apply Qeq_bool_iff in Hw.
      destruct (Qeq_bool (-1) w) eqn:E; [done|].
      apply Qeq_bool_neq in E. destruct E. by symmetry.
    + apply Qeq_bool_neq in Hw.
      destruct (Qeq_bool (-1) w) eqn:E; [|done].
      apply Qeq_bool_iff in E. destruct Hw. by symmetry.
Qed.

(** C9. [enqueue] cannot fail: whatever the callback and the deadline (past,
    or equal to one already queued), and whatever the state of the reactor,
    the call completes, hands back no status ([unit]) and leaves the timer
    heap with exactly the old tasks plus the new one; nothing else of the
    object changes. *)
Theorem enqueue_total (fn : TaskFn) (w : WallTime) (em : EventManager) :
  ∃ em' tr,
    enqueue fn w em = (tt, em', tr) ∧
    _tasks em' ≡ₚ mkTask w fn :: _tasks em ∧
    length (_tasks em') = S (length (_tasks em)) ∧
    set_tasks (_tasks em) em' = em.
Proof.
  eexists _, _. split; [apply enqueue_eq|]. cbn. split_and!.
  - rewrite push_heap_Permutation. symmetry. apply Permutation_cons_append.
  - rewrite push_heap_length, length_app. cbn. lia.
  - by destruct em.
Qed.

(** C2, at the input where the code departs from it.  On an empty timer
    heap a task whose deadline is [-1] is queued without any write to the
    wakeup channel: the placeholder [oldwhen = -1] that stands for the
    empty heap equals the new front deadline, so the test
    [oldwhen != _tasks.front().when] fails. *)
Theorem enqueue_minus_one_no_signal (fn : TaskFn) (em : EventManager) :
  _tasks em = [] →
  enqueue fn (-1)%Q em =
    (tt, set_tasks [mkTask (-1)%Q fn] em, [MutexLock; MutexUnlock]).
Proof. intros Hempty. rewrite enqueue_eq, Hempty. reflexivity. Qed.

Lemma enqueue_minus_one_no_signal_witness :
  enqueue 7 (-1)%Q (EventManager_new 3 4).1 =
    (tt, set_tasks [mkTask (-1)%Q 7] (EventManager_new 3 4).1,
     [MutexLock; MutexUnlock]).
Proof. apply enqueue_minus_one_no_signal. reflexivity. Defined.

(** ** Watches *)

Lemma watchFd_eq fd flags cb em :
  watchFd fd flags cb em =
    if bool_decide (is_Some (_fds em !! (fd, flags)))
    then (false, em, [MutexLock; MutexUnlock])
    else (true, set_fds (<[(fd, flags) := cb]> (_fds em)) em,
          [MutexLock;
           EpollCtl (_epoll_fd em) EPOLL_CTL_ADD fd
             (mkEvent (uint32_of_int flags) fd);
           EventfdWrite (_event_fd em) 1;
           MutexUnlock]).
Proof. unfold watchFd. run_m. by case_bool_decide. Qed.

Lemma removeFd_eq fd flags em :
  removeFd fd flags em =
    if bool_decide (_fds em !! (fd, flags) = None)
    then (false, em, [MutexLock; MutexUnlock])
    else (true, set_fds (delete (fd, flags) (_fds em)) em,
          [MutexLock;
           EpollCtl (_epoll_fd em) EPOLL_CTL_DEL fd
             (mkEvent (uint32_of_int flags) fd);
           MutexUnlock]).
Proof. unfold removeFd. run_m. by case_bool_decide. Qed.

(** C5. [watchFd] on a key that is already registered returns [false] and
    changes nothing: no call to [epoll_ctl], no signal, the table and the
    callback stored under the key stay as they were.  On a new key it calls
    [epoll_ctl(EPOLL_CTL_ADD)] for the descriptor with the mask, stores the
    callback under the key, writes the wakeup channel and returns [true]. *)
Theorem watchFd_spec (fd flags : Z) (cb : FdFn) (em : EventManager) :
  (is_Some (_fds em !! (fd, flags)) →
     watchFd fd flags cb em = (false, em, [MutexLock; MutexUnlock])) ∧
  (_fds em !! (fd, flags) = None →
     watchFd fd flags cb em =
       (true, set_fds (<[(fd, flags) := cb]> (_fds em)) em,
        [MutexLock;
         EpollCtl (_epoll_fd em) EPOLL_CTL_ADD fd (mkEvent (uint32_of_int flags) fd);
         EventfdWrite (_event_fd em) 1;
         MutexUnlock])).
Proof.
  split; intros Hkey; rewrite watchFd_eq.
  - by rewrite bool_decide_eq_true_2.
  - rewrite bool_decide_eq_false_2; [done|]. rewrite Hkey. by intros [? ?].
Qed.

Lemma watchFd_spec_witness :
  watchFd 5 EPOLLIN 1 (EventManager_new 3 4).1 =
    (true, set_fds {[ (5%Z, EPOLLIN) := 1 ]} (EventManager_new 3 4).1,
     [MutexLock; EpollCtl 3 EPOLL_CTL_ADD 5 (mkEvent 1 5); EventfdWrite 4 1;
      MutexUnlock]) ∧
  watchFd 5 EPOLLIN 2 (set_fds {[ (5%Z, EPOLLIN) := 1 ]} (EventManager_new 3 4).1) =
    (false, set_fds {[ (5%Z, EPOLLIN) := 1 ]} (EventManager_new 3 4).1,
     [MutexLock; MutexUnlock]).
Proof.
  split.
  - exact (proj2 (watchFd_spec 5 EPOLLIN 1 (EventManager_new 3 4).1) eq_refl).
  - assert (is_Some (_fds (set_fds {[ (5%Z, EPOLLIN) := 1 ]}
                              (EventManager_new 3 4).1) !! (5%Z, EPOLLIN)))
      as Hkey by (exists 1; reflexivity).
    exact (proj1 (watchFd_spec 5 EPOLLIN 2
             (set_fds {[ (5%Z, EPOLLIN) := 1 ]} (EventManager_new 3 4).1)) Hkey).
Defined.

(** C6. [removeFd] on a key that is not registered returns [false] and
    changes nothing.  On a registered key it calls [epoll_ctl(EPOLL_CTL_DEL)]
    for the descriptor with the mask, erases the callback and returns
    [true].  Neither case writes the wakeup channel. *)
Theorem removeFd_spec (fd flags : Z) (em : EventManager) :
  (_fds em !! (fd, flags) = None →
     removeFd fd flags em = (false, em, [MutexLock; MutexUnlock])) ∧
  (is_Some (_fds em !! (fd, flags)) →
     removeFd fd flags em =
       (true, set_fds (delete (fd, flags) (_fds em)) em,
        [MutexLock;
         EpollCtl (_epoll_fd em) EPOLL_CTL_DEL fd (mkEvent (uint32_of_int flags) fd);
         MutexUnlock])) ∧
  (∀ efd v, EventfdWrite efd v ∉ trace_of (removeFd fd flags em)).
Proof.
  split_and!.
  - intros Hkey. by rewrite removeFd_eq, bool_decide_eq_true_2.
  - intros [cb Hkey]. rewrite removeFd_eq.
    rewrite bool_decide_eq_false_2; [done|]. by rewrite Hkey.
  - intros efd v. rewrite removeFd_eq.
    case_bool_decide; cbn; intros Hin;
      repeat (apply elem_of_cons in Hin as [Hin|Hin]; [discriminate|]);
      by apply elem_of_nil in Hin.
Qed.

Lemma removeFd_spec_witness :
  removeFd 5 EPOLLIN (EventManager_new 3 4).1 =
    (false, (EventManager_new 3 4).1, [MutexLock; MutexUnlock]) ∧
  removeFd 5 EPOLLIN (set_fds {[ (5%Z, EPOLLIN) := 1 ]} (EventManager_new 3 4).1) =
    (true, set_fds (delete (5%Z, EPOLLIN) {[ (5%Z, EPOLLIN) := 1 ]})
             (EventManager_new 3 4).1,
     [MutexLock; EpollCtl 3 EPOLL_CTL_DEL 5 (mkEvent 1 5); MutexUnlock]).
Proof.
  split.
  - exact (proj1 (removeFd_spec 5 EPOLLIN (EventManager_new 3 4).1) eq_refl).
  - assert (is_Some (_fds (set_fds {[ (5%Z, EPOLLIN) := 1 ]}
                              (EventManager_new 3 4).1) !! (5%Z, EPOLLIN)))
      as Hkey by (exists 1; reflexivity).
    exact (proj1 (proj2 (removeFd_spec 5 EPOLLIN
       (set_fds {[ (5%Z, EPOLLIN) := 1 ]} (EventManager_new 3 4).1))) Hkey).
Defined.

(** ** Lifecycle *)

Lemma set_thread_set_id em : set_thread_set (_thread_set em) em = em.
Proof. by destruct em. Qed.

Lemma for_loop_create n i new_thread em :
  for_loop n i (λ i,
      emit (ThreadCreate (new_thread i)) ;;
      modify (λ em, set_thread_set ({[new_thread i]} ∪ _thread_set em) em)) em =
  (tt,
   set_thread_set (list_to_set (new_thread <$> seq i n) ∪ _thread_set em) em,
   ThreadCreate <$> (new_thread <$> seq i n)).
Proof.
  revert i em. induction n as [|n IH]; intros i em; cbn [for_loop].
  - run_m. cbn. by rewrite (left_id_L ∅ (∪)), set_thread_set_id.
  - unfold mbind, M_bind at 1. unfold mbind, M_bind at 1.
    unfold emit at 1, modify at 1. cbn [fst snd].
    rewrite IH. destruct em as [r e1 e2 fds tasks ts]. cbn. f_equal. f_equal.
    unfold set_thread_set; cbn. f_equal.
    rewrite (assoc_L (∪)). f_equal. apply (comm_L (∪)).
Qed.

Lemma start_eq self n new_thread em :
  start self n new_thread em =
    if bool_decide (self ∈ _thread_set em)
    then (false, em, [MutexLock; MutexUnlock])
    else (true,
          set_thread_set (list_to_set (spawned n new_thread) ∪ _thread_set em)
            (set_is_running true em),
          [MutexLock] ++ (ThreadCreate <$> spawned n new_thread) ++ [MutexUnlock]).
Proof.
  unfold start.
  unfold mbind, M_bind at 1. unfold emit at 1. unfold mbind, M_bind at 1, get at 1.
  cbn [fst snd]. case_bool_decide; [by run_m|].
  unfold mbind, M_bind at 1. unfold modify at 1.
  unfold mbind, M_bind at 1. rewrite for_loop_create. by run_m.
Qed.

Lemma spawn_all_lookup n new_thread ws t :
  spawn_all n new_thread ws !! t =
    if bool_decide (t ∈ new_thread <$> seq 0 n) then Some Spawned else ws !! t.
Proof.
  unfold spawn_all. induction (new_thread <$> seq 0 n) as [|a l IH]; cbn.
  - by rewrite bool_decide_eq_false_2 by apply not_elem_of_nil.
  - destruct (decide (a = t)) as [->|Hne].
    + rewrite lookup_insert_eq, bool_decide_eq_true_2; [done|left].
    + rewrite lookup_insert_ne, IH by done.
      rewrite (bool_decide_ext (t ∈ a :: l) (t ∈ l)); [done|].
      rewrite elem_of_cons. split; [intros [?|?]; by subst | by right].
Qed.

(** C4. [start(n)] called from a thread of the registry returns [false] and
    changes nothing.  From any other thread, whether or not the reactor is
    already running, it raises the running flag, creates [n] threads that
    run [trampoline] (each starts at the top of [thread_main], whose first
    step takes the mutex and enters the loop), has every new handle in the
    registry, next to the old ones, when it returns, and returns [true]. *)
Theorem start_spec (self : pthread_t) (n : Z) (new_thread : nat → pthread_t)
    (em : EventManager) :
  (self ∈ _thread_set em →
     start self n new_thread em = (false, em, [MutexLock; MutexUnlock])) ∧
  (self ∉ _thread_set em →
     result (start self n new_thread em) = true ∧
     _is_running (state_of (start self n new_thread em)) = true ∧
     trace_of (start self n new_thread em) =
       [MutexLock] ++ (ThreadCreate <$> spawned n new_thread) ++ [MutexUnlock] ∧
     length (spawned n new_thread) = Z.to_nat n ∧
     _thread_set (state_of (start self n new_thread em)) =
       list_to_set (spawned n new_thread) ∪ _thread_set em ∧
     (∀ t, t ∈ spawned n new_thread →
        t ∈ _thread_set (state_of (start self n new_thread em)) ∧
        ∀ ws, spawn_all (Z.to_nat n) new_thread ws !! t = Some Spawned) ∧
     (∀ inp em1, worker_step inp Spawned em1 =
        (emit MutexLock ;; loop_head (now_wait inp)) em1) ∧
     set_thread_set (_thread_set em)
       (set_is_running (_is_running em)
          (state_of (start self n new_thread em))) = em).
Proof.
  split; intros Hself; rewrite start_eq.
  - by rewrite bool_decide_eq_true_2.
  - rewrite bool_decide_eq_false_2 by done. unfold result, state_of, trace_of. cbn.
    split_and!; try done.
    + unfold spawned. by rewrite length_fmap, length_seq.
    + intros t Ht. split.
      * apply elem_of_union. left. by apply elem_of_list_to_set.
      * intros ws. rewrite spawn_all_lookup. by rewrite bool_decide_eq_true_2.
    + by destruct em.
Qed.

Lemma start_spec_witness :
  (result (start 9%N 2 (λ i, N.of_nat (20 + i)) (EventManager_new 3 4).1) = true ∧
   trace_of (start 9%N 2 (λ i, N.of_nat (20 + i)) (EventManager_new 3 4).1) =
     [MutexLock; ThreadCreate 20%N; ThreadCreate 21%N; MutexUnlock]) ∧
  start 20%N 2 (λ i, N.of_nat (30 + i))
    (set_thread_set {[20%N; 21%N]} (set_is_running true (EventManager_new 3 4).1)) =
    (false,
     set_thread_set {[20%N; 21%N]} (set_is_running true (EventManager_new 3 4).1),
     [MutexLock; MutexUnlock]).
Proof.
  split.
  - assert ((9%N : pthread_t) ∉ _thread_set (EventManager_new 3 4).1) as Hself
      by (cbn; apply not_elem_of_empty).
    destruct (proj2 (start_spec 9%N 2 (λ i, N.of_nat (20 + i))
                       (EventManager_new 3 4).1) Hself) as (Hr & _ & Htr & _).
    split; [exact Hr | exact Htr].
  - assert ((20%N : pthread_t) ∈ _thread_set
              (set_thread_set {[20%N; 21%N]}
                 (set_is_running true (EventManager_new 3 4).1))) as Hself
      by (cbn; apply elem_of_union; left; by apply elem_of_singleton).
    exact (proj1 (start_spec 20%N 2 (λ i, N.of_nat (30 + i)) _) Hself).
Defined.

(** ** [double] arithmetic *)

Lemma Qround_even_floor y :
  (Qround_even y = Qfloor y ∨ Qround_even y = Qfloor y + 1)%Z.
Proof. unfold Qround_even. destruct (Qcompare _ _); [destruct (Z.even _)|..]; auto. Qed.

Lemma Qround_even_half y : (Qabs (inject_Z (Qround_even y) - y) <= 1 # 2)%Q.
Proof.
  pose proof (Qfloor_le y) as Hlo. pose proof (Qlt_floor y) as Hhi.
  rewrite inject_Z_plus in Hhi. change (inject_Z 1) with 1%Q in Hhi.
  apply Qabs_Qle_condition. unfold Qround_even.
  destruct (Qcompare_spec (y - inject_Z (Qfloor y)) (1 # 2)) as [He|Hl|Hg].
  - destruct (Z.even _); rewrite ?inject_Z_plus; change (inject_Z 1) with 1%Q; lra.
  - lra.
  - rewrite inject_Z_plus. change (inject_Z 1) with 1%Q. lra.
Qed.

Global Instance Qround_even_comp : Proper (Qeq ==> eq) Qround_even.
Proof.
  intros x y Hxy. unfold Qround_even. rewrite (Qfloor_comp _ _ Hxy).
  assert (Qcompare (x - inject_Z (Qfloor y)) (1 # 2) =
          Qcompare (y - inject_Z (Qfloor y)) (1 # 2)) as ->; [|done].
  by rewrite Hxy.
Qed.

Lemma Qround_even_Z n : Qround_even (inject_Z n) = n.
Proof.
  unfold Qround_even. rewrite Qfloor_Z.
  assert (inject_Z n - inject_Z n < 1 # 2)%Q as Hlt by lra.
  by rewrite (proj1 (Qlt_alt _ _) Hlt).
Qed.

Lemma Qround_even_nonneg y : (0 <= y)%Q → (0 ≤ Qround_even y)%Z.
Proof.
  intros Hy. assert (0 ≤ Qfloor y)%Z.
  { change 0%Z with (Qfloor 0). by apply Qfloor_resp_le. }
  destruct (Qround_even_floor y); lia.
Qed.

Lemma Qround_even_nonpos y : (y <= 0)%Q → (Qround_even y ≤ 0)%Z.
Proof.
  intros Hy. pose proof (Qfloor_le y) as Hlo.
  assert (Qfloor y ≤ 0)%Z as Hf.
  { change 0%Z with (Qfloor 0). by apply Qfloor_resp_le. }
  unfold Qround_even.
  destruct (Qcompare_spec (y - inject_Z (Qfloor y)) (1 # 2)) as [He|Hl|Hg];
    [destruct (Z.even _)|..]; try lia.
  all: destruct (decide (Qfloor y = 0%Z)) as [E|]; [|lia]; rewrite E in *;
    change (inject_Z 0) with 0%Q in *; lra.
Qed.

Lemma Qpower2_pos e : (0 < 2 ^ e)%Q.
Proof. by apply Qpower_0_lt. Qed.

Lemma Qpower2_succ e : (2 ^ (e + 1) == 2 * 2 ^ e)%Q.
Proof. rewrite Qpower_plus by done. change (2 ^ 1)%Q with 2%Q. lra. Qed.

Lemma Qpower2_mono e1 e2 : (e1 ≤ e2)%Z → (2 ^ e1 <= 2 ^ e2)%Q.
Proof. intros. apply Qpower_le_compat_l; [done|lra]. Qed.

Lemma Qpower2_lt_inv e1 e2 : (2 ^ e1 < 2 ^ e2)%Q → (e1 < e2)%Z.
Proof.
  intros Hlt. destruct (Z.lt_ge_cases e1 e2) as [|Hge]; [done|].
  apply Qpower2_mono in Hge. lra.
Qed.

Lemma Zlog2_Qpower n :
  (0 < n)%Z → (2 ^ Z.log2 n <= inject_Z n < 2 * 2 ^ Z.log2 n)%Q.
Proof.
  intros Hn. destruct (Z.log2_spec n Hn) as [Hlo Hhi].
  pose proof (Z.log2_nonneg n) as Hnn.
  rewrite <- Qpower2_succ.
  rewrite <- !(Zpower_Qpower 2) by lia. rewrite <- Zle_Qle, <- Zlt_Qlt.
  split; [done|]. by rewrite Z.add_1_r.
Qed.

Lemma Qlog2_spec x :
  (0 < x)%Q → (2 ^ Qlog2 x <= x < 2 ^ (Qlog2 x + 1))%Q.
Proof.
  intros Hx. destruct x as [n d].
  assert (0 < n)%Z as Hn.
  { unfold Qlt in Hx. cbn in Hx. lia. }
  pose proof (Zlog2_Qpower n Hn) as [HA1 HA2].
  pose proof (Zlog2_Qpower (Z.pos d) eq_refl) as [HB1 HB2].
  assert ((n # d) * inject_Z (Z.pos d) == inject_Z n)%Q as Hnd.
  { unfold Qeq, inject_Z. cbn. lia. }
  unfold Qlog2. cbn [Qnum Qden].
  pose proof (Qpower_minus 2 (Z.log2 n) (Z.log2 (Z.pos d)) ltac:(done)) as HP.
  pose proof (Qpower2_pos (Z.log2 n)) as HAp.
  pose proof (Qpower2_pos (Z.log2 (Z.pos d))) as HBp.
  set (P := (2 ^ (Z.log2 n - Z.log2 (Z.pos d)))%Q) in *.
  assert (P * 2 ^ Z.log2 (Z.pos d) == 2 ^ Z.log2 n)%Q as HPB.
  { rewrite HP. field. lra. }
  assert (0 < P)%Q as HPp by apply Qpower2_pos.
  clear HP.
  destruct (Qle_bool P (n # d)) eqn:E.
  - apply Qle_bool_iff in E. split; [done|].
    rewrite Qpower2_succ. fold P.
    revert Hnd HA1 HA2 HB1 HB2 HPB HPp HAp HBp.
    generalize (2 ^ Z.log2 n)%Q (2 ^ Z.log2 (Z.pos d))%Q (inject_Z n)
      (inject_Z (Z.pos d)) (n # d). intros A B N D x. intros. nra.
  - apply not_true_iff_false in E. rewrite Qle_bool_iff in E.
    apply Qnot_le_lt in E.
    replace (Z.log2 n - Z.log2 (Z.pos d) - 1 + 1)%Z
      with (Z.log2 n - Z.log2 (Z.pos d))%Z by lia. fold P.
    split; [|done].
    assert (2 * 2 ^ (Z.log2 n - Z.log2 (Z.pos d) - 1) == P)%Q as HP2.
    { rewrite <- Qpower2_succ. unfold P.
      by replace (Z.log2 n - Z.log2 (Z.pos d) - 1 + 1)%Z
        with (Z.log2 n - Z.log2 (Z.pos d))%Z by lia. }
    revert HP2 Hnd HA1 HA2 HB1 HB2 HPB HPp HAp HBp.
    generalize (2 ^ (Z.log2 n - Z.log2 (Z.pos d) - 1))%Q.
    generalize (2 ^ Z.log2 n)%Q (2 ^ Z.log2 (Z.pos d))%Q (inject_Z n)
      (inject_Z (Z.pos d)) (n # d). intros A B N D x P'. intros. nra.
Qed.

Lemma double_ulp_pos x : (0 < double_ulp x)%Q.
Proof. apply Qpower2_pos. Qed.

Lemma double_ulp_le x :
  ¬ (x == 0)%Q →
  (double_ulp x <= Qabs x * 2 ^ (-52) ∨ double_ulp x == 2 ^ (-1074))%Q.
Proof.
  intros Hx. unfold double_ulp.
  destruct (Z.max_spec (Qlog2 (Qabs x) - 52) (-1074)) as [[_ ->]|[_ ->]];
    [by right|left].
  assert (0 < Qabs x)%Q as Hpos.
  { pose proof (Qabs_nonneg x). destruct (Qeq_dec (Qabs x) 0) as [E|E]; [|lra].
    destruct Hx. revert E. apply Qabs_case; intros; lra. }
  destruct (Qlog2_spec _ Hpos) as [Hlo _].
  change (Qlog2 (Qabs x) - 52)%Z with (Qlog2 (Qabs x) + -52)%Z.
  rewrite Qpower_plus by done.
  pose proof (Qpower2_pos (-52)). nra.
Qed.

Lemma round_double_value x r :
  round_double x = Some r →
  (r == inject_Z (Qround_even (x / double_ulp x)) * double_ulp x)%Q ∧
  (Qabs r < 2 ^ 1024)%Q.
Proof.
  unfold round_double. cbv zeta.
  destruct (Qle_bool _ _) eqn:E; [done|]. intros [= <-].
  apply not_true_iff_false in E. rewrite Qle_bool_iff in E.
  apply Qnot_le_lt in E. rewrite Qred_correct. done.
Qed.

Lemma round_double_half_ulp x r :
  round_double x = Some r → (Qabs (r - x) <= double_ulp x * (1 # 2))%Q.
Proof.
  intros [Hr _]%round_double_value.
  pose proof (double_ulp_pos x) as Hu.
  pose proof (Qround_even_half (x / double_ulp x)) as Hm.
  apply Qabs_Qle_condition in Hm. apply Qabs_Qle_condition.
  assert (x / double_ulp x * double_ulp x == x)%Q as Hy by (field; lra).
  rewrite Hr. revert Hu Hm Hy.
  generalize (inject_Z (Qround_even (x / double_ulp x))) (x / double_ulp x)%Q
    (double_ulp x). intros m y u. intros. nra.
Qed.


Lemma round_double_zero x r : (x == 0)%Q → round_double x = Some r → (r == 0)%Q.
Proof.
  intros Hx [Hr _]%round_double_value. rewrite Hr.
  assert (x / double_ulp x == inject_Z 0)%Q as ->.
  { pose proof (double_ulp_pos x). change (inject_Z 0) with 0%Q.
    unfold Qdiv. generalize dependent (double_ulp x). intros u Hu.
    rewrite Hx. lra. }
  rewrite Qround_even_Z. change (inject_Z 0) with 0%Q. lra.
Qed.

Lemma round_double_error x r :
  round_double x = Some r →
  (Qabs (r - x) <= Qabs x * 2 ^ (-53) + 2 ^ (-1075))%Q.
Proof.
  intros Hr. destruct (Qeq_dec x 0) as [Hx|Hx].
  - pose proof (round_double_zero x r Hx Hr) as Hr0.
    apply Qabs_Qle_condition. pose proof (Qabs_nonneg x). lra.
  - pose proof (round_double_half_ulp x r Hr) as Hhalf.
    pose proof (Qabs_nonneg x).
    destruct (double_ulp_le x Hx) as [Hu|Hu].
    + lra.
    + rewrite Hu in Hhalf. lra.
Qed.

Lemma round_double_nonneg x r : round_double x = Some r → (0 <= x)%Q → (0 <= r)%Q.
Proof.
  intros [Hr _]%round_double_value Hx. rewrite Hr.
  pose proof (double_ulp_pos x) as Hu.
  assert (0 <= x / double_ulp x)%Q as Hy.
  { apply Qle_shift_div_l; [done|]. lra. }
  apply Qround_even_nonneg in Hy. rewrite Zle_Qle in Hy.
  change (inject_Z 0) with 0%Q in Hy. nra.
Qed.

Lemma round_double_nonpos x r : round_double x = Some r → (x <= 0)%Q → (r <= 0)%Q.
Proof.
  intros [Hr _]%round_double_value Hx. rewrite Hr.
  pose proof (double_ulp_pos x) as Hu.
  assert (x / double_ulp x <= 0)%Q as Hy.
  { apply Qle_shift_div_r; [done|]. lra. }
  apply Qround_even_nonpos in Hy. rewrite Zle_Qle in Hy.
  change (inject_Z 0) with 0%Q in Hy. nra.
Qed.

Lemma Qabs_pos_lt x : ¬ (x == 0)%Q → (0 < Qabs x)%Q.
Proof.
  intros Hx. pose proof (Qabs_nonneg x).
  destruct (Qeq_dec (Qabs x) 0) as [E|E]; [|lra].
  destruct Hx. revert E. apply Qabs_case; intros; lra.
Qed.

Lemma Qdiv_zero x u : (x == 0)%Q → (0 < u)%Q → (x / u == inject_Z 0)%Q.
Proof. intros Hx Hu. change (inject_Z 0) with 0%Q. rewrite Hx. field. lra. Qed.

Lemma round_double_exact x (m k : Z) :
  (x == inject_Z m * 2 ^ k)%Q →
  (Z.abs m < 2 ^ 53)%Z → (-1074 ≤ k)%Z → (Qabs x < 2 ^ 1024)%Q →
  round_double x = Some (Qred x).
Proof.
  intros Hxm Hm Hk Hfin.
  assert (inject_Z (Qround_even (x / double_ulp x)) * double_ulp x == x)%Q as Hr.
  { pose proof (double_ulp_pos x) as Hu.
    destruct (Qeq_dec x 0) as [Hx|Hx].
    { rewrite (Qdiv_zero x _ Hx Hu), Qround_even_Z.
      change (inject_Z 0) with 0%Q. lra. }
    pose proof (Qabs_pos_lt x Hx) as Hpos.
    destruct (Qlog2_spec _ Hpos) as [Hlo _].
    assert (Qabs x < 2 ^ (53 + k))%Q as Hup.
    { rewrite Hxm, Qabs_Qmult, (Qabs_pos (2 ^ k)) by apply Qlt_le_weak, Qpower2_pos.
      rewrite Qpower_plus by done. pose proof (Qpower2_pos k).
      assert (Qabs (inject_Z m) < 2 ^ 53)%Q; [|nra].
      change (inject_Z m) with (m # 1). rewrite <- Zabs_Qabs.
      change (Z.abs m # 1) with (inject_Z (Z.abs m)).
      rewrite <- (Zpower_Qpower 2) by done. by rewrite <- Zlt_Qlt. }
    assert (Qlog2 (Qabs x) < 53 + k)%Z as He by (apply Qpower2_lt_inv; lra).
    unfold double_ulp in *.
    set (ue := Z.max (Qlog2 (Qabs x) - 52) (-1074)) in *.
    assert (ue ≤ k)%Z as Hue by lia.
    assert (x / 2 ^ ue == inject_Z (m * 2 ^ (k - ue)))%Q as Hy.
    { rewrite inject_Z_mult, (Zpower_Qpower 2) by lia.
      change (inject_Z 2) with 2%Q. rewrite Qpower_minus by done. rewrite Hxm.
      pose proof (Qpower2_pos ue) as Hpu. revert Hpu.
      generalize (2 ^ k)%Q (2 ^ ue)%Q. intros a b Hb. field. lra. }
    rewrite Hy, Qround_even_Z, <- Hy.
    revert Hu. generalize (2 ^ ue)%Q. intros b Hb. field. lra. }
  unfold round_double. cbv zeta.
  destruct (Qle_bool _ _) eqn:E.
  - apply Qle_bool_iff in E. rewrite Hr in E. lra.
  - f_equal. by apply Qred_complete.
Qed.

Lemma round_double_representable x r :
  round_double x = Some r →
  ∃ m k : Z, (Z.abs m ≤ 2 ^ 53)%Z ∧ (-1074 ≤ k)%Z ∧ (r == inject_Z m * 2 ^ k)%Q.
Proof.
  intros [Hr _]%round_double_value.
  exists (Qround_even (x / double_ulp x)), (Z.max (Qlog2 (Qabs x) - 52) (-1074)).
  split_and!; [|lia|done].
  pose proof (double_ulp_pos x) as Hu.
  destruct (Qeq_dec x 0) as [Hx|Hx].
  { by rewrite (Qdiv_zero x _ Hx Hu), Qround_even_Z. }
  pose proof (Qabs_pos_lt x Hx) as Hpos.
  destruct (Qlog2_spec _ Hpos) as [_ Hhi].
  assert (2 ^ (Qlog2 (Qabs x) + 1) <= 2 ^ 53 * double_ulp x)%Q as Hle.
  { unfold double_ulp. rewrite <- Qpower_plus by done. apply Qpower2_mono. lia. }
  assert (Qabs (x / double_ulp x) < 2 ^ 53)%Q as Hy.
  { unfold Qdiv. rewrite Qabs_Qmult, Qabs_Qinv, (Qabs_pos (double_ulp x)) by lra.
    apply Qlt_shift_div_r; [done|]. lra. }
  apply Qabs_Qlt_condition in Hy as [Hy1 Hy2].
  pose proof (Qfloor_le (x / double_ulp x)) as Hf1.
  pose proof (Qlt_floor (x / double_ulp x)) as Hf2.
  rewrite inject_Z_plus in Hf2. change (inject_Z 1) with 1%Q in Hf2.
  assert (inject_Z (Qfloor (x / double_ulp x)) < inject_Z (2 ^ 53))%Q as Hlt
    by (change (inject_Z (2 ^ 53)) with (2 ^ 53)%Q; lra).
  assert (inject_Z (- 2 ^ 53 - 1) < inject_Z (Qfloor (x / double_ulp x)))%Q as Hgt
    by (change (inject_Z (- 2 ^ 53 - 1)) with (- 2 ^ 53 - 1)%Q; lra).
  rewrite <- Zlt_Qlt in Hlt, Hgt.
  destruct (Qround_even_floor (x / double_ulp x)) as [->| ->]; lia.
Qed.

Lemma round_double_idem x r : round_double x = Some r → round_double r = Some r.
Proof.
  intros Hx. destruct (round_double_representable x r Hx) as (m & k & Hm & Hk & Hr).
  destruct (round_double_value x r Hx) as [_ Hfin].
  assert (Qred r = r) as Hred.
  { unfold round_double in Hx. cbv zeta in Hx.
    destruct (Qle_bool _ _); [done|]. injection Hx as <-.
    apply Qred_complete, Qred_correct. }
  rewrite <- Hred at 2.
  destruct (decide (Z.abs m = 2 ^ 53)%Z) as [Hmax|Hlt].
  - assert (m = 2 ^ 53 ∨ m = - 2 ^ 53)%Z as [-> | ->] by lia.
    + apply (round_double_exact r (2 ^ 52) (k + 1)); [|done|lia|done].
      rewrite Hr, Qpower_plus by done.
      change (inject_Z (2 ^ 53)) with (2 * inject_Z (2 ^ 52))%Q.
      change (2 ^ 1)%Q with 2%Q. lra.
    + apply (round_double_exact r (- 2 ^ 52) (k + 1)); [|done|lia|done].
      rewrite Hr, Qpower_plus by done.
      change (inject_Z (- 2 ^ 53)) with (2 * inject_Z (- 2 ^ 52))%Q.
      change (2 ^ 1)%Q with 2%Q. lra.
  - apply (round_double_exact r m k); [done|lia|lia|done].
Qed.

(** ** The wait timeout *)

Lemma Qtrunc_floor_ceiling x :
  Qtrunc x = if Qle_bool 0 x then Qfloor x else Qceiling x.
Proof.
  destruct x as [n d]. unfold Qtrunc, Qle_bool, Qceiling, Qfloor. cbn.
  rewrite ?Z.mul_1_r. change (0 * Z.pos d)%Z with 0%Z.
  destruct (Z.leb_spec 0 n) as [Hn|Hn].
  - apply Z.quot_div_nonneg; lia.
  - rewrite <- (Z.opp_involutive n) at 1.
    rewrite Z.quot_opp_l by lia. f_equal. apply Z.quot_div_nonneg; lia.
Qed.

Global Instance Qtrunc_comp : Proper (Qeq ==> eq) Qtrunc.
Proof.
  intros x y Hxy. rewrite !Qtrunc_floor_ceiling.
  assert (Qle_bool 0 x = Qle_bool 0 y) as ->.
  { apply eq_true_iff_eq. rewrite !Qle_bool_iff. by rewrite Hxy. }
  destruct (Qle_bool 0 y); by rewrite Hxy.
Qed.

Lemma Qtrunc_nonneg x : (0 <= x)%Q → (0 ≤ Qtrunc x)%Z.
Proof.
  intros Hx. rewrite Qtrunc_floor_ceiling.
  rewrite (proj2 (Qle_bool_iff 0 x) Hx).
  change 0%Z with (Qfloor 0). by apply Qfloor_resp_le.
Qed.

Lemma Qtrunc_nonpos x : (x <= 0)%Q → (Qtrunc x ≤ 0)%Z.
Proof.
  intros Hx. rewrite Qtrunc_floor_ceiling. destruct (Qle_bool 0 x) eqn:E.
  - change 0%Z with (Qfloor 0). by apply Qfloor_resp_le.
  - change 0%Z with (Qceiling 0). by apply Qceiling_resp_le.
Qed.

Lemma Qtrunc_bounds x :
  (0 <= x)%Q → (inject_Z (Qtrunc x) <= x < inject_Z (Qtrunc x) + 1)%Q.
Proof.
  intros Hx. rewrite Qtrunc_floor_ceiling, (proj2 (Qle_bool_iff 0 x) Hx).
  pose proof (Qfloor_le x). pose proof (Qlt_floor x) as Hlt.
  rewrite inject_Z_plus in Hlt. by change (inject_Z 1) with 1%Q in Hlt.
Qed.

(** The cast never moves a value by a whole unit. *)
Lemma Qtrunc_near x : (x - 1 < inject_Z (Qtrunc x) < x + 1)%Q.
Proof.
  rewrite Qtrunc_floor_ceiling. destruct (Qle_bool 0 x).
  - pose proof (Qfloor_le x). pose proof (Qlt_floor x) as Hlt.
    rewrite inject_Z_plus in Hlt. change (inject_Z 1) with 1%Q in Hlt. lra.
  - pose proof (Qle_ceiling x). pose proof (Qceiling_lt x) as Hlt.
    unfold Z.sub in Hlt. rewrite inject_Z_plus, inject_Z_opp in Hlt.
    change (inject_Z 1) with 1%Q in Hlt. lra.
Qed.

Lemma wait_timeout_in_range front tasks now d ms :
  double_sub (when front) now = Some d →
  double_mul d 1000 = Some ms →
  (INT_MIN ≤ Qtrunc ms ≤ INT_MAX)%Z →
  wait_timeout (front :: tasks) now = Some (Z.max 0 (Qtrunc ms)).
Proof.
  intros Hd Hms Hrange. unfold wait_timeout. cbn [head].
  rewrite Hd. cbn. rewrite Hms. cbn. unfold static_cast_int.
  rewrite bool_decide_eq_true_2 by done. cbn. f_equal.
  destruct (Z.ltb_spec (Qtrunc ms) 0); lia.
Qed.

Lemma wait_timeout_out_of_range front tasks now d ms :
  double_sub (when front) now = Some d →
  double_mul d 1000 = Some ms →
  ¬ (INT_MIN ≤ Qtrunc ms ≤ INT_MAX)%Z →
  wait_timeout (front :: tasks) now = None.
Proof.
  intros Hd Hms Hrange. unfold wait_timeout. cbn [head].
  rewrite Hd. cbn. rewrite Hms. cbn. unfold static_cast_int.
  by rewrite bool_decide_eq_false_2.
Qed.

(** The two roundings of [(when - now) * 1000] together move a product
    that fits an [int], or lies next to one, by less than a millionth of a
    millisecond. *)
Lemma double_ms_error (w now d ms : WallTime) :
  double_sub w now = Some d →
  double_mul d 1000 = Some ms →
  (- 2 ^ 32 <= ms <= 2 ^ 32)%Q →
  (Qabs (ms - (w - now) * 1000) <= 1 # 1000000)%Q.
Proof.
  intros Hd%round_double_error Hms%round_double_error [Hlo Hhi].
  assert (0 < 2 ^ (-1075) <= 2 ^ (-64))%Q as Htiny
    by (split; vm_compute; [done|discriminate]).
  revert Htiny Hd Hms. generalize (2 ^ (-1075))%Q. intros c Hc Hd Hms.
  apply Qabs_Qle_condition in Hd, Hms. apply Qabs_Qle_condition.
  revert Hd Hms.
  apply (Qabs_case (w - now)); intros Hx; apply (Qabs_case (d * 1000));
    intros Hd1 Hd Hms; lra.
Qed.

(** A product beyond [INT_MAX] comes from a deadline that is really that
    far ahead: the roundings do not bring it there. *)
Lemma double_ms_beyond (w now d ms : WallTime) :
  double_sub w now = Some d →
  double_mul d 1000 = Some ms →
  (INT_MAX < Qtrunc ms)%Z →
  (inject_Z INT_MAX < (w - now) * 1000)%Q.
Proof.
  intros Hd%round_double_error Hms%round_double_error Hbig.
  assert (2 ^ 31 <= ms)%Q as Hlo.
  { assert (0 <= ms)%Q as Hpos.
    { destruct (Qlt_le_dec ms 0) as [Hneg|]; [|done].
      apply Qlt_le_weak, Qtrunc_nonpos in Hneg. unfold INT_MAX in Hbig. lia. }
    pose proof (Qtrunc_bounds ms Hpos) as [Hle _].
    assert (inject_Z (INT_MAX + 1) <= inject_Z (Qtrunc ms))%Q as Hge
      by (rewrite <- Zle_Qle; lia).
    change (inject_Z (INT_MAX + 1)) with (2 ^ 31)%Q in Hge. lra. }
  change (inject_Z INT_MAX) with (2 ^ 31 - 1)%Q.
  assert (0 < 2 ^ (-1075) <= 2 ^ (-64))%Q as Htiny
    by (split; vm_compute; [done|discriminate]).
  revert Htiny Hd Hms. generalize (2 ^ (-1075))%Q. intros c Hc Hd Hms.
  apply Qabs_Qle_condition in Hd, Hms.
  revert Hd Hms.
  apply (Qabs_case (w - now)); intros Hx; apply (Qabs_case (d * 1000));
    intros Hd1 Hd Hms; lra.
Qed.

(** C7, at the inputs where the code departs from it.  At the head of an
    iteration of a running reactor whose heap is not empty the code casts
    [(_tasks.front().when - currentTime()) * 1000], a [double], to [int]
    and replaces a negative result by 0; nothing holds the value below
    [INT_MAX].  When the root deadline is so far ahead that the product
    is beyond [INT_MAX] (more than about 24.8 days), the time left in
    milliseconds, which the timeout should be, is itself beyond [INT_MAX],
    the cast has no defined result, and the iteration does not reach
    [epoll_wait] with a timeout computed from the deadline. *)
Theorem wait_timeout_far_deadline (front : Task) (now d ms : WallTime)
    (em : EventManager) :
  _is_running em = true →
  head (_tasks em) = Some front →
  double_sub (when front) now = Some d →
  double_mul d 1000 = Some ms →
  (INT_MAX < Qtrunc ms)%Z →
  (inject_Z INT_MAX < (when front - now) * 1000)%Q ∧
  static_cast_int ms = None ∧
  wait_timeout (_tasks em) now = None ∧
  loop_head now em = (Undefined, em, []).
Proof.
  intros Hrun Hfront Hd Hms Hbig.
  assert (wait_timeout (_tasks em) now = None) as Hwt.
  { destruct (_tasks em) as [|t tasks]; simplify_eq/=.
    apply (wait_timeout_out_of_range _ _ _ d ms); [done..|lia]. }
  split_and!.
  - by apply (double_ms_beyond _ _ d ms).
  - unfold static_cast_int. rewrite bool_decide_eq_false_2; [done|lia].
  - done.
  - unfold loop_head. run_m. by rewrite Hrun, Hwt.
Qed.

Lemma wait_timeout_far_deadline_witness :
  (inject_Z INT_MAX < (1702592000 - 1700000000) * 1000)%Q ∧
  static_cast_int 2592000000 = None ∧
  wait_timeout [mkTask 1702592000 7] 1700000000 = None ∧
  loop_head 1700000000
    (set_is_running true
       (set_tasks [mkTask 1702592000 7] (EventManager_new 3 4).1)) =
    (Undefined,
     set_is_running true
       (set_tasks [mkTask 1702592000 7] (EventManager_new 3 4).1), []).
Proof.
  apply (wait_timeout_far_deadline (mkTask 1702592000 7) 1700000000
           2592000 2592000000
           (set_is_running true
              (set_tasks [mkTask 1702592000 7] (EventManager_new 3 4).1))).
  - reflexivity.
  - reflexivity.
  - vm_compute. reflexivity.
  - vm_compute. reflexivity.
  - vm_compute. reflexivity.
Defined.

(** Where the product fits an [int] the iteration reaches [epoll_wait]
    with the product cast and held at 0 from below, and where no task is
    queued it reaches it with the default of ten seconds. *)
Lemma loop_head_epoll_wait (now : WallTime) (em : EventManager) :
  _is_running em = true →
  (∀ front d ms,
     head (_tasks em) = Some front →
     double_sub (when front) now = Some d →
     double_mul d 1000 = Some ms →
     (INT_MIN ≤ Qtrunc ms ≤ INT_MAX)%Z →
     loop_head now em =
       (InEpollWait (Z.max 0 (Qtrunc ms)), em,
        [MutexUnlock;
         EpollWait (_epoll_fd em) kMaxEvents (Z.max 0 (Qtrunc ms))])) ∧
  (_tasks em = [] →
     loop_head now em =
       (InEpollWait kEpollDefaultWait, em,
        [MutexUnlock; EpollWait (_epoll_fd em) kMaxEvents kEpollDefaultWait])).
Proof.
  intros Hrun. split.
  - intros front d ms Hfront Hd Hms Hrange. unfold loop_head. run_m. rewrite Hrun.
    destruct (_tasks em) as [|t tasks]; simplify_eq/=.
    by rewrite (wait_timeout_in_range _ _ _ d ms).
  - intros Hempty. unfold loop_head. run_m. by rewrite Hrun, Hempty.
Qed.

(** ** Dispatch of the ready events *)

Lemma m_eta {A} (r : A * EventManager * list effect) :
  (let '(a, em, tr) := r in (a, em, tr)) = r.
Proof. by destruct r as [[? ?] ?]. Qed.

Lemma loop_head_eq now em :
  loop_head now em =
    if _is_running em then
      match wait_timeout (_tasks em) now with
      | Some timeout =>
          (InEpollWait timeout, em,
           [MutexUnlock; EpollWait (_epoll_fd em) kMaxEvents timeout])
      | None => (Undefined, em, [])
      end
    else (Returned, em, [EventfdWrite (_event_fd em) 1; MutexUnlock]).
Proof.
  unfold loop_head. run_m. destruct (_is_running em); [|done].
  by destruct (wait_timeout _ _).
Qed.

Lemma drain_eq inp em :
  drain inp em =
    match head (_tasks em) with
    | Some t =>
        if Qle_bool (when t) (now_due inp) then
          (InTaskCallback,
           set_tasks (pop_back (pop_heap compareTasks (_tasks em))) em,
           [MutexUnlock; CallTask t])
        else loop_head (now_wait inp) em
    | None => loop_head (now_wait inp) em
    end.
Proof.
  unfold drain. run_m.
  destruct (head (_tasks em)) as [t|];
    [destruct (Qle_bool _ _); [by destruct em|]|];
    apply m_eta.
Qed.

Lemma dispatch_cons ev pending inp em :
  dispatch (ev :: pending) inp em =
    match _fds em !! (data_fd ev, int_of_uint32 (events ev)) with
    | Some cb =>
        (InFdCallback pending, em,
         [MutexUnlock; CallFd cb (int_of_uint32 (events ev))])
    | None =>
        if bool_decide (data_fd ev = _event_fd em)
        then (emit (EventfdRead (_event_fd em)) ;; dispatch pending inp) em
        else dispatch pending inp em
    end.
Proof.
  cbn [dispatch]. unfold mbind, M_bind at 1. unfold get at 1. cbn [fst snd].
  destruct (_fds em !! _); [by run_m|].
  case_bool_decide; apply m_eta.
Qed.

Lemma loop_head_no_call now em e :
  e ∈ trace_of (loop_head now em) → is_call e = false.
Proof.
  rewrite loop_head_eq. unfold trace_of.
  destruct (_is_running em); [destruct (wait_timeout _ _)|]; cbn;
    intros Hin; repeat (apply elem_of_cons in Hin as [->|Hin]; [done|]);
    by apply elem_of_nil in Hin.
Qed.

Lemma drain_no_fd_call inp em cb arg :
  CallFd cb arg ∉ trace_of (drain inp em).
Proof.
  intros Hin. rewrite drain_eq in Hin.
  destruct (head (_tasks em)); [destruct (Qle_bool _ _)|];
    try (by apply loop_head_no_call in Hin).
  cbn in Hin. repeat (apply elem_of_cons in Hin as [?|Hin]; [done|]).
  by apply elem_of_nil in Hin.
Qed.

Lemma dispatch_fd_calls evs inp em cb arg :
  CallFd cb arg ∈ trace_of (dispatch evs inp em) →
  ∃ ev, ev ∈ evs ∧ arg = int_of_uint32 (events ev) ∧
        _fds em !! (data_fd ev, arg) = Some cb.
Proof.
  induction evs as [|ev pending IH].
  - intros Hin. by apply drain_no_fd_call in Hin.
  - rewrite dispatch_cons.
    destruct (_fds em !! (data_fd ev, int_of_uint32 (events ev))) as [cb'|] eqn:Hkey.
    + cbn. intros Hin.
      apply elem_of_cons in Hin as [?|Hin]; [done|].
      apply elem_of_cons in Hin as [Heq|Hin]; [|by apply elem_of_nil in Hin].
      simplify_eq. exists ev. split; [left|done].
    + assert (CallFd cb arg ∈ trace_of (dispatch pending inp em) →
              ∃ ev0, ev0 ∈ ev :: pending ∧ arg = int_of_uint32 (events ev0) ∧
                     _fds em !! (data_fd ev0, arg) = Some cb) as IH'.
      { intros Hin. destruct (IH Hin) as (ev0 & ? & ? & ?).
        exists ev0. split; [by right|done]. }
      case_bool_decide; [|done].
      run_m. destruct (dispatch pending inp em) as [[p em'] tr]. cbn in *.
      intros Hin. apply elem_of_cons in Hin as [?|Hin]; [done|]. by apply IH'.
Qed.

(** C8. For each event of the batch, in order: when the exact pair
    (descriptor, reported mask) is a registered key, the worker releases the
    mutex and calls the stored callback with the reported mask; otherwise,
    when the descriptor is the wakeup channel, it reads the channel and does
    nothing else for this event; otherwise the event is skipped, whatever
    other masks are registered for the descriptor.  A watch callback is
    called only for an event whose exact pair is registered. *)
Theorem dispatch_spec (ev : epoll_event) (pending : list epoll_event)
    (inp : input) (em : EventManager) :
  (∀ cb, _fds em !! (data_fd ev, int_of_uint32 (events ev)) = Some cb →
     dispatch (ev :: pending) inp em =
       (InFdCallback pending, em,
        [MutexUnlock; CallFd cb (int_of_uint32 (events ev))])) ∧
  (_fds em !! (data_fd ev, int_of_uint32 (events ev)) = None →
     data_fd ev = _event_fd em →
     dispatch (ev :: pending) inp em =
       (emit (EventfdRead (_event_fd em)) ;; dispatch pending inp) em) ∧
  (_fds em !! (data_fd ev, int_of_uint32 (events ev)) = None →
     data_fd ev ≠ _event_fd em →
     dispatch (ev :: pending) inp em = dispatch pending inp em) ∧
  (∀ cb arg,
     CallFd cb arg ∈ trace_of (dispatch (ev :: pending) inp em) →
     ∃ ev', ev' ∈ ev :: pending ∧ arg = int_of_uint32 (events ev') ∧
            _fds em !! (data_fd ev', arg) = Some cb).
Proof.
  split_and!.
  - intros cb Hkey. by rewrite dispatch_cons, Hkey.
  - intros Hkey Hfd. by rewrite dispatch_cons, Hkey, bool_decide_eq_true_2.
  - intros Hkey Hfd. by rewrite dispatch_cons, Hkey, bool_decide_eq_false_2.
  - intros cb arg. apply dispatch_fd_calls.
Qed.

Lemma dispatch_spec_witness :
  let em := set_is_running true
              (set_fds {[ (5%Z, EPOLLIN) := 1 ]} (EventManager_new 3 4).1) in
  let inp := mkInput (WaitReady []) 0 0 in
  dispatch [mkEvent EPOLLIN 5] inp em =
    (InFdCallback [], em, [MutexUnlock; CallFd 1 EPOLLIN]) ∧
  dispatch [mkEvent EPOLLIN 4] inp em =
    (InEpollWait 10000, em,
     [EventfdRead 4; MutexUnlock; EpollWait 3 32 10000]) ∧
  dispatch [mkEvent (Z.lor EPOLLIN EPOLLHUP) 5] inp em =
    (InEpollWait 10000, em, [MutexUnlock; EpollWait 3 32 10000]).
Proof.
  intros em inp. split_and!.
  - exact (proj1 (dispatch_spec (mkEvent EPOLLIN 5) [] inp em) 1 eq_refl).
  - exact (proj1 (proj2 (dispatch_spec (mkEvent EPOLLIN 4) [] inp em))
             eq_refl eq_refl).
  - refine (eq_trans
      (proj1 (proj2 (proj2 (dispatch_spec (mkEvent (Z.lor EPOLLIN EPOLLHUP) 5)
                              [] inp em))) eq_refl _) eq_refl).
    discriminate.
Defined.

(** ** Walking the registry in [stop] *)

Lemma set_sorted_Permutation s : set_sorted s ≡ₚ elements s.
Proof. apply merge_sort_Permutation. Qed.

Lemma set_sorted_lt s : StronglySorted N.lt (set_sorted s).
Proof.
  pose proof (StronglySorted_merge_sort N.le (elements s)) as Hle.
  assert (NoDup (set_sorted s)) as Hnd
    by (rewrite set_sorted_Permutation; apply NoDup_elements).
  fold (set_sorted s) in Hle. induction Hle as [|x l Hl IH Hx]; [constructor|].
  apply NoDup_cons in Hnd as [Hnotin Hnd]. constructor; [by apply IH|].
  apply Forall_forall. intros y Hy.
  pose proof (proj1 (Forall_forall _ _) Hx y Hy).
  assert (x ≠ y) by (intros ->; done). lia.
Qed.

Lemma filter_none {A} (P : A → Prop) `{∀ x, Decision (P x)} (l : list A) :
  Forall (λ x, ¬ P x) l → filter P l = [].
Proof.
  induction 1 as [|x l Hx _ IH]; [done|]. by rewrite filter_cons_False.
Qed.

Lemma set_next_sorted s pre t rest :
  set_sorted s = pre ++ t :: rest → set_next s t = head rest.
Proof.
  intros Hs. unfold set_next. pose proof (set_sorted_lt s) as Hlt.
  rewrite Hs in *. apply StronglySorted_app in Hlt as (Hpre & _ & Hrest).
  apply StronglySorted_cons in Hrest as [Hrest _].
  rewrite filter_app, filter_cons_False by lia.
  rewrite (filter_none _ pre).
  2:{ apply Forall_forall. intros x Hx.
      pose proof (Hpre x t Hx ltac:(left)). lia. }
  destruct rest as [|r rest]; [done|].
  apply Forall_cons in Hrest as [Hr _]. by rewrite filter_cons_True.
Qed.

Lemma stop_loop_test_eq i em :
  stop_loop_test i em =
    match i with
    | Some t => (StopJoining t, em, [MutexUnlock; ThreadJoin t])
    | None => (StopReturned true, set_thread_set ∅ em, [MutexUnlock])
    end.
Proof. by destruct i. Qed.

Lemma stop_enter_eq self em :
  stop_enter self em =
    if bool_decide (self ∈ _thread_set em)
    then (StopReturned false, em, [MutexLock; MutexUnlock])
    else
      let em1 := set_tasks [] (set_fds ∅ (set_is_running false em)) in
      let pre := [MutexLock] ++ stop_warnings em ++
                 [EventfdWrite (_event_fd em) 1] in
      match set_begin (_thread_set em) with
      | Some t => (StopJoining t, em1, pre ++ [MutexUnlock; ThreadJoin t])
      | None => (StopReturned true, set_thread_set ∅ em1, pre ++ [MutexUnlock])
      end.
Proof.
  unfold stop_enter, stop_warnings. run_m. case_bool_decide; [done|].
  do 2 case_bool_decide; cbn; rewrite stop_loop_test_eq;
    by destruct (set_begin _).
Qed.

Lemma stop_joined_eq i em :
  stop_joined i em =
    match set_next (_thread_set em) i with
    | Some t => (StopJoining t, em, [MutexLock; MutexUnlock; ThreadJoin t])
    | None => (StopReturned true, set_thread_set ∅ em, [MutexLock; MutexUnlock])
    end.
Proof.
  unfold stop_joined. run_m. rewrite stop_loop_test_eq. by destruct (set_next _ _).
Qed.

Lemma stop_resume_returned fuel r em :
  stop_resume fuel (StopReturned r) em = (r, em, []).
Proof. by destruct fuel. Qed.

Lemma stop_resume_joins rest pre t fuel em :
  set_sorted (_thread_set em) = pre ++ t :: rest →
  length rest < fuel →
  stop_resume fuel (StopJoining t) em =
    (true, set_thread_set ∅ em, [MutexLock] ++ join_all rest ++ [MutexUnlock]).
Proof.
  revert pre t fuel. induction rest as [|r rest IH]; intros pre t fuel Hs Hfuel;
    (destruct fuel as [|fuel]; [lia|]); cbn [stop_resume];
    unfold mbind, M_bind; rewrite stop_joined_eq, (set_next_sorted _ _ _ _ Hs).
  - cbn [head]. by rewrite stop_resume_returned.
  - cbn [head]. rewrite (IH (pre ++ [t]) r fuel).
    + reflexivity.
    + by rewrite <- app_assoc.
    + cbn in Hfuel. lia.
Qed.

Lemma join_all_quiet l :
  filter (λ e, is_call e || is_epoll_ctl e || is_eventfd_write e)
    (join_all l) = [].
Proof. induction l as [|t l IH]; [done|]. exact IH. Qed.

(** C3. [stop()] called from a thread of the registry returns [false] and
    changes nothing.  From any other thread it lowers the running flag,
    empties the timer heap and the descriptor table without calling any
    callback and without any [epoll_ctl], writes the wakeup channel once,
    joins every registered worker once, releasing the mutex before each
    join and taking it again after, empties the registry and returns
    [true]. *)
Theorem stop_spec (self : pthread_t) (em : EventManager) :
  (self ∈ _thread_set em →
     stop self em = (false, em, [MutexLock; MutexUnlock])) ∧
  (self ∉ _thread_set em →
     stop self em =
       (true, stopped em,
        [MutexLock] ++ stop_warnings em ++ [EventfdWrite (_event_fd em) 1] ++
        join_all (set_sorted (_thread_set em)) ++ [MutexUnlock]) ∧
     set_sorted (_thread_set em) ≡ₚ elements (_thread_set em) ∧
     filter (λ e, is_call e || is_epoll_ctl e || is_eventfd_write e)
       (trace_of (stop self em)) = [EventfdWrite (_event_fd em) 1]).
Proof.
  assert (self ∉ _thread_set em →
     stop self em =
       (true, stopped em,
        [MutexLock] ++ stop_warnings em ++ [EventfdWrite (_event_fd em) 1] ++
        join_all (set_sorted (_thread_set em)) ++ [MutexUnlock])) as Hstop.
  { intros Hself. unfold stop. unfold mbind, M_bind at 1. unfold get at 1.
    unfold mbind, M_bind at 1. cbn [fst snd app].
    rewrite stop_enter_eq, bool_decide_eq_false_2 by done. cbv zeta.
    unfold set_begin.
    destruct (set_sorted (_thread_set em)) as [|t rest] eqn:Hs; cbn [head].
    - rewrite stop_resume_returned. cbn.
      rewrite app_nil_r, <- !app_assoc. reflexivity.
    - rewrite (stop_resume_joins rest [] t).
      + cbn. f_equal. rewrite <- !app_assoc. cbn. reflexivity.
      + done.
      + assert (size (_thread_set em) = length (set_sorted (_thread_set em))) as ->
          by (by rewrite set_sorted_Permutation).
        rewrite Hs. cbn. lia. }
  split.
  - intros Hself. unfold stop. run_m.
    by rewrite stop_enter_eq, bool_decide_eq_true_2, stop_resume_returned.
  - intros Hself. split_and!; [by apply Hstop | apply set_sorted_Permutation |].
    rewrite (Hstop Hself). unfold trace_of, stop_warnings. cbn [snd].
    rewrite !filter_app.
    rewrite join_all_quiet. by do 2 case_bool_decide.
Qed.

Lemma stop_spec_witness :
  stop 9%N (set_tasks [mkTask 5 0]
            (set_thread_set {[20%N; 21%N]}
               (set_is_running true (EventManager_new 3 4).1))) =
    (true, stopped (EventManager_new 3 4).1,
     [MutexLock; DLogWarning PendingTasks; EventfdWrite 4 1;
      MutexUnlock; ThreadJoin 20%N; MutexLock;
      MutexUnlock; ThreadJoin 21%N; MutexLock; MutexUnlock]) ∧
  stop 20%N (set_thread_set {[20%N; 21%N]}
             (set_is_running true (EventManager_new 3 4).1)) =
    (false,
     set_thread_set {[20%N; 21%N]} (set_is_running true (EventManager_new 3 4).1),
     [MutexLock; MutexUnlock]).
Proof.
  split.
  - assert ((9%N : pthread_t) ∉ _thread_set
              (set_tasks [mkTask 5 0]
                 (set_thread_set {[20%N; 21%N]}
                    (set_is_running true (EventManager_new 3 4).1)))) as Hself
      by (vm_compute; intros Hin; discriminate Hin).
    refine (eq_trans (proj1 (proj2 (stop_spec 9%N _) Hself)) _).
    vm_compute. reflexivity.
  - assert ((20%N : pthread_t) ∈ _thread_set
              (set_thread_set {[20%N; 21%N]}
                 (set_is_running true (EventManager_new 3 4).1))) as Hself
      by (cbn; apply elem_of_union; left; by apply elem_of_singleton).
    exact (proj1 (stop_spec 20%N _) Hself).
Defined.

(** ** The timer loop *)

Lemma pop_tasks_spec v t :
  is_heap compareTasks v → head v = Some t →
  is_heap compareTasks (pop_back (pop_heap compareTasks v)) ∧
  v ≡ₚ t :: pop_back (pop_heap compareTasks v).
Proof.
  intros Hv Ht.
  apply pop_heap_spec;
    [apply compareTasks_asym | apply compareTasks_ntrans | done | done].
Qed.

Lemma trace_of_mk {A} (a : A) em tr : trace_of (a, em, tr) = tr.
Proof. done. Qed.
Lemma state_of_mk {A} (a : A) em tr : state_of (a, em, tr) = em.
Proof. done. Qed.
Lemma result_mk {A} (a : A) em tr : result (a, em, tr) = a.
Proof. done. Qed.

Lemma fired_app tr1 tr2 : fired (tr1 ++ tr2) = fired tr1 ++ fired tr2.
Proof. apply omap_app. Qed.

Lemma loop_head_quiet now inp em : quiet_or_pop inp em (loop_head now em).
Proof.
  left. rewrite loop_head_eq.
  destruct (_is_running em); [destruct (wait_timeout _ _)|]; done.
Qed.

Lemma drain_quiet_or_pop inp em : quiet_or_pop inp em (drain inp em).
Proof.
  rewrite drain_eq. destruct (head (_tasks em)) as [t|] eqn:Ht;
    [|apply loop_head_quiet].
  destruct (Qle_bool (when t) (now_due inp)) eqn:Hdue; [|apply loop_head_quiet].
  right. exists t. by rewrite <- Qle_bool_iff.
Qed.

Lemma quiet_or_pop_prefix inp em pre (r : pc * EventManager * list effect) :
  fired pre = [] → quiet_or_pop inp em r →
  quiet_or_pop inp em (result r, state_of r, pre ++ trace_of r).
Proof.
  intros Hpre [[Hf Hs]|(t & Ht & Hdue & Hf & Hr & Hs)]; [left|right; exists t];
    unfold trace_of, state_of, result in *; cbn; by rewrite fired_app, Hpre, Hf.
Qed.

Lemma bind_emit_eq {A} e (m : M A) em :
  (emit e ;; m) em = (result (m em), state_of (m em), [e] ++ trace_of (m em)).
Proof. run_m. by destruct (m em) as [[? ?] ?]. Qed.

Lemma dispatch_quiet_or_pop evs inp em : quiet_or_pop inp em (dispatch evs inp em).
Proof.
  induction evs as [|ev pending IH]; [apply drain_quiet_or_pop|].
  rewrite dispatch_cons. destruct (_fds em !! _); [by left|].
  case_bool_decide; [|done].
  rewrite bind_emit_eq. by apply quiet_or_pop_prefix.
Qed.

Lemma worker_step_quiet_or_pop inp p em :
  quiet_or_pop inp em (worker_step inp p em).
Proof.
  destruct p; cbn [worker_step]; try by left.
  - rewrite bind_emit_eq. apply quiet_or_pop_prefix; [done|apply loop_head_quiet].
  - rewrite bind_emit_eq. apply quiet_or_pop_prefix; [done|].
    destruct (waited inp) as [evs|errno]; [apply dispatch_quiet_or_pop|].
    unfold when_. case_bool_decide; cbn [negb].
    + run_m. rewrite m_eta. apply loop_head_quiet.
    + rewrite bind_emit_eq. apply quiet_or_pop_prefix; [done|apply loop_head_quiet].
  - rewrite bind_emit_eq. apply quiet_or_pop_prefix; [done|apply dispatch_quiet_or_pop].
  - rewrite bind_emit_eq. apply quiet_or_pop_prefix; [done|apply drain_quiet_or_pop].
Qed.

Lemma quiet_or_pop_heap inp em r :
  quiet_or_pop inp em r → is_heap compareTasks (_tasks em) →
  is_heap compareTasks (_tasks (state_of r)) ∧
  _tasks em ≡ₚ fired (trace_of r) ++ _tasks (state_of r) ∧
  (∀ t x, t ∈ fired (trace_of r) → x ∈ _tasks (state_of r) →
     (when t <= when x)%Q).
Proof.
  intros [[-> ->]|(t & Ht & Hdue & -> & _ & ->)] Hheap.
  - split_and!; [done|done|]. intros t x Hin. by apply elem_of_nil in Hin.
  - destruct (pop_tasks_spec _ t Hheap Ht) as [Hheap' Hperm]. cbn.
    split_and!; [done|done|].
    intros t' x Ht' Hx. apply list_elem_of_singleton in Ht'. subst t'.
    apply (tasks_root_min _ t x Hheap Ht). rewrite Hperm. by right.
Qed.

Lemma thread_main_cons inp inps p em :
  thread_main (inp :: inps) p em =
    let r1 := worker_step inp p em in
    let r2 := thread_main inps (result r1) (state_of r1) in
    (result r2, state_of r2, trace_of r1 ++ trace_of r2).
Proof.
  cbn [thread_main]. unfold mbind, M_bind.
  destruct (worker_step inp p em) as [[p1 em1] tr1]. cbn.
  by destruct (thread_main inps p1 em1) as [[p2 em2] tr2].
Qed.


Lemma drain_due inp em t :
  head (_tasks em) = Some t → (when t <= now_due inp)%Q →
  drain inp em =
    (InTaskCallback,
     set_tasks (pop_back (pop_heap compareTasks (_tasks em))) em,
     [MutexUnlock; CallTask t]).
Proof.
  intros Ht Hdue. rewrite drain_eq, Ht.
  by rewrite (proj2 (Qle_bool_iff _ _) Hdue).
Qed.




(** ** The heap property in every reachable state *)

Lemma world_step_heap a w w' tr :
  is_heap compareTasks (_tasks (reactor w)) →
  world_step a w = Some (w', tr) →
  is_heap compareTasks (_tasks (reactor w')).
Proof.
  intros Hheap Hstep. destruct a; cbn [world_step] in Hstep.
  - destruct (_ && _); [|done]. rewrite start_eq in Hstep.
    case_bool_decide; by simplify_eq.
  - destruct (may_call _ _); [|done]. rewrite stop_enter_eq in Hstep.
    case_bool_decide; [by simplify_eq|]. cbv zeta in Hstep.
    destruct (set_begin _); simplify_eq; cbn; apply is_heap_nil.
  - destruct (stoppers w !! self) as [i|]; [|done].
    destruct (workers w !! i) as [[]|]; try done.
    rewrite stop_joined_eq in Hstep. by destruct (set_next _ _); simplify_eq.
  - destruct (may_call _ _); [|done]. rewrite enqueue_eq in Hstep.
    simplify_eq. cbn. by apply push_heap_tasks_is_heap.
  - destruct (may_call _ _); [|done]. rewrite watchFd_eq in Hstep.
    case_bool_decide; by simplify_eq.
  - destruct (may_call _ _); [|done]. rewrite removeFd_eq in Hstep.
    case_bool_decide; by simplify_eq.
  - destruct (workers w !! t) as [p|]; [|done].
    pose proof (quiet_or_pop_heap inp (reactor w) _
                  (worker_step_quiet_or_pop inp p (reactor w)) Hheap) as (Hh & _).
    destruct (worker_step inp p (reactor w)) as [[p' em'] tr'].
    destruct p; by simplify_eq.
Qed.

Lemma reachable_heap w :
  reachable w → is_heap compareTasks (_tasks (reactor w)).
Proof.
  induction 1 as [epoll_fd event_fd|a w w' tr _ IH Hstep].
  - apply is_heap_nil.
  - by eapply world_step_heap.
Qed.

(** ** All workers together *)





Example fire_order_scenario :
  fired (trace_of
    (thread_main (replicate 3 (mkInput (WaitReady []) 1 1)) (InEpollWait 100)
       (state_of (schedule_all [(0, 0.3%Q); (1, 0.1%Q); (2, 0.2%Q)]
                    (EventManager_new 3 4).1)))) =
  [mkTask 0.1 1; mkTask 0.2 2; mkTask 0.3 0].
Proof. vm_compute. reflexivity. Qed.

(** ** A reactor without workers *)

Lemma world_step_no_workers a w w' tr :
  workers w = ∅ → no_spawn a → world_step a w = Some (w', tr) →
  workers w' = ∅ ∧ Forall (λ e, is_call e = false) tr.
Proof.
  intros Hws Hns Hstep. destruct a; cbn [world_step no_spawn] in *.
  - destruct (_ && _); [|done]. rewrite start_eq in Hstep.
    unfold spawned in Hstep. replace (Z.to_nat num_threads) with 0 in Hstep by lia.
    case_bool_decide; simplify_eq; cbn; split; try done; by repeat constructor.
  - destruct (may_call _ _); [|done]. rewrite stop_enter_eq in Hstep.
    unfold stop_warnings in Hstep.
    case_bool_decide; [simplify_eq; cbn; split; [done|by repeat constructor]|].
    cbv zeta in Hstep.
    destruct (set_begin _); do 2 case_bool_decide; simplify_eq; cbn;
      (split; [done|by repeat constructor]).
  - destruct (stoppers w !! self) as [i|]; [|done].
    by rewrite Hws, lookup_empty in Hstep.
  - destruct (may_call _ _); [|done]. rewrite enqueue_eq in Hstep.
    simplify_eq. cbn. split; [done|].
    destruct (head _); [destruct (negb _)|]; by repeat constructor.
  - destruct (may_call _ _); [|done]. rewrite watchFd_eq in Hstep.
    case_bool_decide; simplify_eq; cbn; (split; [done|by repeat constructor]).
  - destruct (may_call _ _); [|done]. rewrite removeFd_eq in Hstep.
    case_bool_decide; simplify_eq; cbn; (split; [done|by repeat constructor]).
  - by rewrite Hws, lookup_empty in Hstep.
Qed.

Lemma world_run_no_workers acts w w' tr :
  workers w = ∅ → Forall no_spawn acts → world_run acts w = Some (w', tr) →
  workers w' = ∅ ∧ Forall (λ e, is_call e = false) tr.
Proof.
  revert w tr. induction acts as [|a acts IH]; intros w tr Hws Hns Hrun.
  - cbn in Hrun. simplify_eq. split; [done|constructor].
  - apply Forall_cons in Hns as [Ha Hns]. cbn [world_run] in Hrun.
    destruct (world_step a w) as [[w1 tr1]|] eqn:Hstep; [|done]. cbn in Hrun.
    destruct (world_run acts w1) as [[w2 tr2]|] eqn:Hrun'; [|done]. cbn in Hrun.
    simplify_eq.
    destruct (world_step_no_workers a w w1 tr1 Hws Ha Hstep) as [Hws1 Hq1].
    destruct (IH w1 tr2 Hws1 Hns Hrun') as [Hws2 Hq2].
    split; [done|]. by apply Forall_app.
Qed.

(** C10. [start(n)] with [n <= 0], called by a thread that is not a worker
    on a reactor without workers, returns [true] and raises the running
    flag, creates no thread and leaves the registry as it was; from then
    on, whatever the callers do (schedule, watch, unwatch, stop, further
    [start]s with no thread), there is still no worker and no task or
    watch callback is ever called, until a [start] with a positive count. *)
Theorem start_without_workers (self : pthread_t) (n : Z)
    (new_thread : nat → pthread_t) (w : World) :
  (n ≤ 0)%Z → workers w = ∅ → stoppers w !! self = None →
  self ∉ _thread_set (reactor w) →
  start self n new_thread (reactor w) =
    (true, set_is_running true (reactor w), [MutexLock; MutexUnlock]) ∧
  world_step (CallStart self n new_thread) w =
    Some (mkWorld (set_is_running true (reactor w)) ∅ (stoppers w),
          [MutexLock; MutexUnlock]) ∧
  (∀ acts w' tr,
     Forall no_spawn acts →
     world_run (CallStart self n new_thread :: acts) w = Some (w', tr) →
     workers w' = ∅ ∧ Forall (λ e, is_call e = false) tr).
Proof.
  intros Hn Hws Hst Hself.
  assert (start self n new_thread (reactor w) =
    (true, set_is_running true (reactor w), [MutexLock; MutexUnlock])) as Hstart.
  { rewrite start_eq, bool_decide_eq_false_2 by done. unfold spawned.
    replace (Z.to_nat n) with 0 by lia.
    change (new_thread <$> seq 0 0) with ([] : list pthread_t).
    rewrite list_to_set_nil, (left_id_L ∅ (∪)). by destruct (reactor w). }
  split_and!; [done| |].
  - cbn [world_step]. unfold may_call, fresh_threads.
    replace (Z.to_nat n) with 0 by lia.
    by rewrite Hstart, Hst, Hws, lookup_empty.
  - intros acts w' tr Hns. apply world_run_no_workers; [done|].
    constructor; [exact Hn|done].
Qed.

Lemma start_without_workers_witness :
  start 9%N 0 (λ i, N.of_nat i) (EventManager_new 3 4).1 =
    (true, set_is_running true (EventManager_new 3 4).1,
     [MutexLock; MutexUnlock]) ∧
  ∃ w' tr,
    world_run [CallStart 9%N 0 (λ i, N.of_nat i);
               CallEnqueue 9%N 0 1; CallWatchFd 9%N 5 EPOLLIN 1;
               CallStop 9%N]
      (initial_world 3 4) = Some (w', tr) ∧
    workers w' = ∅ ∧ Forall (λ e, is_call e = false) tr.
Proof.
  assert ((9%N : pthread_t) ∉ _thread_set (reactor (initial_world 3 4))) as Hself
    by (cbn; apply not_elem_of_empty).
  destruct (start_without_workers 9%N 0 (λ i, N.of_nat i) (initial_world 3 4)
              ltac:(lia) eq_refl eq_refl Hself) as (Hstart & _ & Hrun).
  split; [exact Hstart|].
  destruct (world_run [CallStart 9%N 0 (λ i, N.of_nat i);
                       CallEnqueue 9%N 0 1; CallWatchFd 9%N 5 EPOLLIN 1;
                       CallStop 9%N] (initial_world 3 4))
    as [[w' tr]|] eqn:Erun.
  - exists w', tr. split; [done|].
    apply (Hrun [CallEnqueue 9%N 0 1; CallWatchFd 9%N 5 EPOLLIN 1; CallStop 9%N]
             w' tr); [|exact Erun].
    by repeat constructor.
  - vm_compute in Erun. discriminate Erun.
Defined.

(** * Part III: further properties of the code *)

(** ** Watches: round trips *)

Lemma set_fds_id em : set_fds (_fds em) em = em.
Proof. by destruct em. Qed.
Lemma set_fds_set_fds m1 m2 em : set_fds m2 (set_fds m1 em) = set_fds m2 em.
Proof. done. Qed.
Lemma fds_set_fds m em : _fds (set_fds m em) = m.
Proof. done. Qed.

(** X1. Registering a new key and removing it again succeeds twice and
    gives the object back exactly as it was, after one
    [EPOLL_CTL_ADD], one wakeup and one [EPOLL_CTL_DEL]. *)
Theorem watchFd_removeFd_roundtrip (fd flags : Z) (cb : FdFn)
    (em : EventManager) :
  _fds em !! (fd, flags) = None →
  (watchFd fd flags cb ;; removeFd fd flags) em =
    (true, em,
     [MutexLock;
      EpollCtl (_epoll_fd em) EPOLL_CTL_ADD fd (mkEvent (uint32_of_int flags) fd);
      EventfdWrite (_event_fd em) 1; MutexUnlock;
      MutexLock;
      EpollCtl (_epoll_fd em) EPOLL_CTL_DEL fd (mkEvent (uint32_of_int flags) fd);
      MutexUnlock]).
Proof.
  intros Hkey. unfold mbind, M_bind.
  rewrite watchFd_eq, bool_decide_eq_false_2 by (rewrite Hkey; by intros [? ?]).
  rewrite removeFd_eq, fds_set_fds.
  rewrite bool_decide_eq_false_2 by by rewrite lookup_insert_eq.
  cbv beta iota. rewrite set_fds_set_fds, delete_insert_eq, delete_id by done.
  by rewrite set_fds_id.
Qed.

Lemma watchFd_removeFd_roundtrip_witness :
  (watchFd 5 EPOLLIN 1 ;; removeFd 5 EPOLLIN) (EventManager_new 3 4).1 =
    (true, (EventManager_new 3 4).1,
     [MutexLock; EpollCtl 3 EPOLL_CTL_ADD 5 (mkEvent 1 5); EventfdWrite 4 1;
      MutexUnlock; MutexLock; EpollCtl 3 EPOLL_CTL_DEL 5 (mkEvent 1 5);
      MutexUnlock]).
Proof.
  exact (watchFd_removeFd_roundtrip 5 EPOLLIN 1 (EventManager_new 3 4).1 eq_refl).
Defined.

(** X2. The same descriptor may be watched under two different masks: the
    second [watchFd] succeeds too and issues a second [EPOLL_CTL_ADD] for
    the descriptor.  Removing one of the two keys then issues
    [EPOLL_CTL_DEL] for the descriptor while the other key, with its
    callback, stays in the table. *)
Theorem watchFd_two_masks (fd m1 m2 : Z) (cb1 cb2 : FdFn) (em : EventManager) :
  m1 ≠ m2 →
  _fds em !! (fd, m1) = None → _fds em !! (fd, m2) = None →
  let r := (watchFd fd m1 cb1 ;; watchFd fd m2 cb2 ;; removeFd fd m1) em in
  result r = true ∧
  _fds (state_of r) = <[(fd, m2) := cb2]> (_fds em) ∧
  trace_of r =
    [MutexLock;
     EpollCtl (_epoll_fd em) EPOLL_CTL_ADD fd (mkEvent (uint32_of_int m1) fd);
     EventfdWrite (_event_fd em) 1; MutexUnlock;
     MutexLock;
     EpollCtl (_epoll_fd em) EPOLL_CTL_ADD fd (mkEvent (uint32_of_int m2) fd);
     EventfdWrite (_event_fd em) 1; MutexUnlock;
     MutexLock;
     EpollCtl (_epoll_fd em) EPOLL_CTL_DEL fd (mkEvent (uint32_of_int m1) fd);
     MutexUnlock].
Proof.
  intros Hne H1 H2 r. subst r. unfold mbind, M_bind.
  assert ((fd, m1) ≠ (fd, m2)) as Hk by congruence.
  rewrite watchFd_eq, bool_decide_eq_false_2 by (rewrite H1; by intros [? ?]).
  rewrite watchFd_eq, fds_set_fds.
  rewrite bool_decide_eq_false_2
    by (rewrite lookup_insert_ne, H2 by done; by intros [? ?]).
  rewrite removeFd_eq, fds_set_fds.
  rewrite bool_decide_eq_false_2
    by (rewrite lookup_insert_ne, lookup_insert_eq by done; done).
  cbv beta iota. rewrite result_mk, state_of_mk, trace_of_mk, fds_set_fds.
  split_and!; [done| |done].
  rewrite delete_insert_ne, delete_insert_eq, delete_id by done. done.
Qed.

Lemma watchFd_two_masks_witness :
  _fds (state_of ((watchFd 5 1 7 ;; watchFd 5 4 8 ;; removeFd 5 1)
                    (EventManager_new 3 4).1)) =
    <[(5%Z, 4%Z) := 8]> ∅.
Proof.
  assert ((1 : Z) ≠ 4%Z) as Hne by discriminate.
  exact (proj1 (proj2 (watchFd_two_masks 5 1 4 7 8 (EventManager_new 3 4).1
                         Hne eq_refl eq_refl))).
Defined.

Lemma int_uint32_roundtrip x :
  (INT_MIN ≤ x ≤ INT_MAX)%Z → int_of_uint32 (uint32_of_int x) = x.
Proof.
  unfold INT_MIN, INT_MAX, int_of_uint32, uint32_of_int. intros Hx.
  destruct (Z_lt_le_dec x 0) as [Hneg|Hpos].
  - replace (x mod 2 ^ 32)%Z with (x + 2 ^ 32)%Z.
    + destruct (Z.ltb_spec (x + 2 ^ 32) (2 ^ 31)); lia.
    + apply Z.mod_unique with (q := (-1)%Z); lia.
  - rewrite Z.mod_small by lia. destruct (Z.ltb_spec x (2 ^ 31)); lia.
Qed.

(** X3. A watch reaches its callback: after [watchFd(fd, flags, cb)] on a
    new key, an event for [fd] that reports the mask handed to
    [epoll_ctl] (any [int], the sign bit included) makes the worker call
    [cb] with [flags].  After [removeFd] of a key, no event is dispatched
    under this key any more: every callback call of a batch comes from an
    event whose key is another one, registered before. *)
Theorem watch_dispatch_roundtrip (fd flags : Z) (cb : FdFn)
    (pending : list epoll_event) (inp : input) (em : EventManager) :
  (INT_MIN ≤ flags ≤ INT_MAX)%Z →
  (_fds em !! (fd, flags) = None →
   dispatch (mkEvent (uint32_of_int flags) fd :: pending) inp
     (state_of (watchFd fd flags cb em)) =
     (InFdCallback pending, state_of (watchFd fd flags cb em),
      [MutexUnlock; CallFd cb flags])) ∧
  (∀ evs cb' arg,
     CallFd cb' arg ∈ trace_of (dispatch evs inp (state_of (removeFd fd flags em))) →
     ∃ ev, ev ∈ evs ∧ arg = int_of_uint32 (events ev) ∧
           (data_fd ev, arg) ≠ (fd, flags) ∧
           _fds em !! (data_fd ev, arg) = Some cb').
Proof.
  intros Hrange. split.
  - intros Hkey.
    rewrite watchFd_eq, bool_decide_eq_false_2 by (rewrite Hkey; by intros [? ?]).
    rewrite state_of_mk, dispatch_cons, fds_set_fds. cbn [data_fd events].
    by rewrite int_uint32_roundtrip, lookup_insert_eq.
  - intros evs cb' arg Hin.
    apply dispatch_fd_calls in Hin as (ev & Hev & -> & Hlook).
    exists ev. rewrite removeFd_eq in Hlook. case_bool_decide as Hkey.
    + rewrite state_of_mk in Hlook. split_and!; [done|done| |done].
      intros Heq. rewrite Heq in Hlook. congruence.
    + rewrite state_of_mk, fds_set_fds in Hlook.
      destruct (decide ((data_fd ev, int_of_uint32 (events ev)) = (fd, flags)))
        as [Heq|Hne].
      * by rewrite Heq, lookup_delete_eq in Hlook.
      * rewrite lookup_delete_ne in Hlook by done. done.
Qed.

Lemma watch_dispatch_roundtrip_witness :
  let flags := (-2147483647)%Z in
  let em := (EventManager_new 3 4).1 in
  dispatch [mkEvent (uint32_of_int flags) 5] (mkInput (WaitReady []) 0 0)
    (state_of (watchFd 5 flags 9 em)) =
    (InFdCallback [], state_of (watchFd 5 flags 9 em),
     [MutexUnlock; CallFd 9 flags]).
Proof.
  intros flags em.
  assert (INT_MIN ≤ flags ≤ INT_MAX)%Z as Hrange by (vm_compute; split; discriminate).
  exact (proj1 (watch_dispatch_roundtrip 5 flags 9 [] (mkInput (WaitReady []) 0 0)
                  em Hrange) eq_refl).
Defined.

(** ** Lifecycle: stopping twice, restarting, destroying *)

Lemma stop_eq self em :
  stop self em =
    if bool_decide (self ∈ _thread_set em)
    then (false, em, [MutexLock; MutexUnlock])
    else (true, stopped em,
          [MutexLock] ++ stop_warnings em ++ [EventfdWrite (_event_fd em) 1] ++
          join_all (set_sorted (_thread_set em)) ++ [MutexUnlock]).
Proof.
  unfold stop. unfold mbind, M_bind at 1. unfold get at 1.
  unfold mbind, M_bind at 1. cbn [fst snd app]. rewrite stop_enter_eq.
  case_bool_decide as Hself; [by rewrite stop_resume_returned|]. cbv zeta.
  unfold set_begin.
  destruct (set_sorted (_thread_set em)) as [|t rest] eqn:Hs; cbn [head].
  - rewrite stop_resume_returned. cbn.
    rewrite app_nil_r, <- !app_assoc. reflexivity.
  - rewrite (stop_resume_joins rest [] t).
    + cbn. f_equal. rewrite <- !app_assoc. cbn. reflexivity.
    + done.
    + assert (size (_thread_set em) = length (set_sorted (_thread_set em))) as ->
        by (by rewrite set_sorted_Permutation).
      rewrite Hs. cbn. lia.
Qed.

Lemma set_sorted_empty : set_sorted ∅ = [].
Proof. unfold set_sorted. by rewrite elements_empty. Qed.

(** X4. [stop] is idempotent: on a reactor that a non-worker has stopped,
    a further [stop], from any thread whatever, returns [true] again,
    joins nobody, warns about nothing, leaves the object as it is and
    still writes the wakeup channel once. *)
Theorem stop_twice (self self' : pthread_t) (em : EventManager) :
  self ∉ _thread_set em →
  stop self' (state_of (stop self em)) =
    (true, state_of (stop self em),
     [MutexLock; EventfdWrite (_event_fd em) 1; MutexUnlock]).
Proof.
  intros Hself. rewrite (stop_eq self), bool_decide_eq_false_2, state_of_mk by done.
  rewrite stop_eq. cbn [_thread_set stopped].
  rewrite bool_decide_eq_false_2 by apply not_elem_of_empty.
  by rewrite set_sorted_empty.
Qed.

Lemma stop_twice_witness :
  let em := set_tasks [mkTask 5 0]
              (set_thread_set {[20%N; 21%N]}
                 (set_is_running true (EventManager_new 3 4).1)) in
  stop 20%N (state_of (stop 9%N em)) =
    (true, state_of (stop 9%N em), [MutexLock; EventfdWrite 4 1; MutexUnlock]).
Proof.
  intros em.
  assert ((9%N : pthread_t) ∉ _thread_set em) as Hself
    by (vm_compute; intros Hin; discriminate Hin).
  exact (stop_twice 9%N 20%N em Hself).
Defined.

(** X5. A stopped reactor can be started again, by any thread, a former
    worker included: after a successful [stop], [start(n)] returns [true],
    the reactor runs with an empty timer heap and an empty descriptor
    table, and its registry holds exactly the new handles. *)
Theorem stop_then_start (self self' : pthread_t) (n : Z)
    (new_thread : nat → pthread_t) (em : EventManager) :
  self ∉ _thread_set em →
  (stop self ;; start self' n new_thread) em =
    (true,
     mkEventManager true (_epoll_fd em) (_event_fd em) ∅ []
       (list_to_set (spawned n new_thread)),
     trace_of (stop self em) ++
     [MutexLock] ++ (ThreadCreate <$> spawned n new_thread) ++ [MutexUnlock]).
Proof.
  intros Hself. unfold mbind, M_bind.
  rewrite stop_eq, bool_decide_eq_false_2 by done.
  rewrite start_eq. cbn [_thread_set stopped].
  rewrite bool_decide_eq_false_2 by apply not_elem_of_empty.
  cbv beta iota. rewrite trace_of_mk. unfold set_thread_set, set_is_running. cbn.
  by rewrite (right_id_L ∅ (∪)).
Qed.

Lemma stop_then_start_witness :
  let em := set_thread_set {[20%N; 21%N]}
              (set_is_running true (EventManager_new 3 4).1) in
  result ((stop 9%N ;; start 20%N 1 (λ i, 30%N)) em) = true ∧
  _thread_set (state_of ((stop 9%N ;; start 20%N 1 (λ i, 30%N)) em)) =
    list_to_set [30%N].
Proof.
  intros em.
  assert ((9%N : pthread_t) ∉ _thread_set em) as Hself
    by (vm_compute; intros Hin; discriminate Hin).
  rewrite (stop_then_start 9%N 20%N 1 (λ i, 30%N) em Hself). split; reflexivity.
Defined.

(** X6. The destructor does not look at the result of [stop()].  Run by a
    thread of the registry (say from a callback), it closes both
    descriptors and destroys the mutex although [stop()] refused: the
    running flag, the pending tasks, the watches and the registry are as
    before and no worker has been joined.  Run by any other thread it
    stops the reactor first, joining every worker, and then closes. *)
Theorem EventManager_destroy_spec (self : pthread_t) (em : EventManager) :
  (self ∈ _thread_set em →
     EventManager_destroy self em =
       (set_descriptors (-1) (-1) em,
        [Member MutexLock; Member MutexUnlock;
         Close (_event_fd em); Close (_epoll_fd em); MutexDestroy])) ∧
  (self ∉ _thread_set em →
     EventManager_destroy self em =
       (mkEventManager false (-1) (-1) ∅ [] ∅,
        (Member <$>
           [MutexLock] ++ stop_warnings em ++ [EventfdWrite (_event_fd em) 1] ++
           join_all (set_sorted (_thread_set em)) ++ [MutexUnlock]) ++
        [Close (_event_fd em); Close (_epoll_fd em); MutexDestroy])).
Proof.
  split; intros Hself; unfold EventManager_destroy; rewrite stop_eq.
  - by rewrite bool_decide_eq_true_2.
  - by rewrite bool_decide_eq_false_2.
Qed.

Lemma EventManager_destroy_spec_witness :
  let em := set_tasks [mkTask 5 0]
              (set_thread_set {[20%N; 21%N]}
                 (set_is_running true (EventManager_new 3 4).1)) in
  EventManager_destroy 20%N em =
    (set_descriptors (-1) (-1) em,
     [Member MutexLock; Member MutexUnlock; Close 4; Close 3; MutexDestroy]) ∧
  (EventManager_destroy 9%N em).1 = mkEventManager false (-1) (-1) ∅ [] ∅.
Proof.
  intros em. split.
  - assert ((20%N : pthread_t) ∈ _thread_set em) as Hself
      by (cbn; apply elem_of_union; left; by apply elem_of_singleton).
    exact (proj1 (EventManager_destroy_spec 20%N em) Hself).
  - assert ((9%N : pthread_t) ∉ _thread_set em) as Hself
      by (vm_compute; intros Hin; discriminate Hin).
    by rewrite (proj2 (EventManager_destroy_spec 9%N em) Hself).
Defined.

(** ** The worker loop: errors, shutdown, timeouts *)

Lemma bind_ret_eq {A} (m : M A) em : (mret tt ;; m) em = m em.
Proof. run_m. apply m_eta. Qed.

Lemma worker_step_wait_failed errno inp timeout em :
  waited inp = WaitFailed errno →
  worker_step inp (InEpollWait timeout) em =
    (result (loop_head (now_wait inp) em), em,
     [MutexLock] ++ (if bool_decide (errno = EINTR) then [] else [LogError errno]) ++
     trace_of (loop_head (now_wait inp) em)).
Proof.
  intros Hw. cbn [worker_step]. rewrite bind_emit_eq, Hw. unfold when_.
  assert (state_of (loop_head (now_wait inp) em) = em) as Hst.
  { rewrite loop_head_eq.
    destruct (_is_running em); [destruct (wait_timeout _ _)|]; done. }
  case_bool_decide; cbn [negb].
  - by rewrite bind_ret_eq, Hst.
  - rewrite bind_emit_eq, result_mk, state_of_mk, trace_of_mk, Hst. done.
Qed.

Lemma loop_head_result now em :
  (∃ timeout, result (loop_head now em) = InEpollWait timeout) ∨
  result (loop_head now em) = Returned ∨
  result (loop_head now em) = Undefined.
Proof.
  rewrite loop_head_eq.
  destruct (_is_running em); [destruct (wait_timeout _ _)|]; eauto.
Qed.

(** X7. A failed [epoll_wait] skips the rest of the iteration.  As long as
    the waits of a worker fail, with whatever [errno], the worker runs no
    task, even an overdue one, and no watch callback, and it leaves the
    object untouched. *)
Theorem failed_waits_run_nothing (inps : list input) (timeout : Z)
    (em : EventManager) :
  Forall (λ inp, ∃ errno, waited inp = WaitFailed errno) inps →
  state_of (thread_main inps (InEpollWait timeout) em) = em ∧
  Forall (λ e, is_call e = false)
    (trace_of (thread_main inps (InEpollWait timeout) em)).
Proof.
  assert (∀ p, (∃ t, p = InEpollWait t) ∨ p = Returned ∨ p = Undefined →
     Forall (λ inp, ∃ errno, waited inp = WaitFailed errno) inps →
     state_of (thread_main inps p em) = em ∧
     Forall (λ e, is_call e = false) (trace_of (thread_main inps p em))) as Hgen.
  { induction inps as [|inp inps IH]; intros p Hp Hfail; [by split|].
    apply Forall_cons in Hfail as [[errno Hw] Hfail].
    rewrite thread_main_cons. cbv zeta. rewrite state_of_mk, trace_of_mk.
    assert (state_of (worker_step inp p em) = em ∧
            Forall (λ e, is_call e = false) (trace_of (worker_step inp p em)) ∧
            ((∃ t, result (worker_step inp p em) = InEpollWait t) ∨
             result (worker_step inp p em) = Returned ∨
             result (worker_step inp p em) = Undefined)) as (Hst & Htr & Hres).
    { destruct Hp as [[t ->]|[->| ->]].
      - rewrite (worker_step_wait_failed errno) by done.
        rewrite state_of_mk, trace_of_mk, result_mk.
        split_and!; [done| |apply loop_head_result].
        constructor; [done|]. apply Forall_app. split.
        + case_bool_decide; by repeat constructor.
        + apply Forall_forall. intros e. apply loop_head_no_call.
      - cbn. split_and!; [done|constructor|by right; left].
      - cbn. split_and!; [done|constructor|by right; right]. }
    rewrite Hst. destruct (IH _ Hres Hfail) as [Hst' Htr'].
    split; [done|]. by apply Forall_app. }
  intros Hfail. apply Hgen; [left; by eexists|done].
Qed.

Lemma failed_waits_run_nothing_witness :
  let em := set_is_running true
              (set_tasks [mkTask 1 0] (EventManager_new 3 4).1) in
  let inps := [mkInput (WaitFailed 9) 7 7; mkInput (WaitFailed EINTR) 8 8] in
  state_of (thread_main inps (InEpollWait 0) em) = em ∧
  Forall (λ e, is_call e = false) (trace_of (thread_main inps (InEpollWait 0) em)).
Proof.
  intros em inps. apply failed_waits_run_nothing.
  repeat constructor; by eexists.
Defined.

Lemma dispatch_no_watch_trace evs inp em :
  _fds em = ∅ →
  ∃ pre, Forall (λ e, e = EventfdRead (_event_fd em)) pre ∧
         dispatch evs inp em =
           (result (drain inp em), state_of (drain inp em),
            pre ++ trace_of (drain inp em)).
Proof.
  intros Hfds. induction evs as [|ev pending (pre & Hpre & IH)].
  - exists []. split; [constructor|]. cbn [dispatch app].
    by destruct (drain inp em) as [[? ?] ?].
  - rewrite dispatch_cons, Hfds, lookup_empty. case_bool_decide.
    + exists (EventfdRead (_event_fd em) :: pre). split; [by constructor|].
      by rewrite bind_emit_eq, IH.
    + by exists pre.
Qed.

(** X8. After [stop] a worker leaves at once.  When the running flag is
    down and heap and table are empty, the next step of a worker, wherever
    it was (just created, waiting, or back from a callback) and whatever
    its wait reports, ends [thread_main]: it calls no callback, leaves the
    object as it is, and the last things it does are one write to the
    wakeup channel, which wakes the next worker, and the release of the
    mutex. *)
Theorem worker_leaves_after_stop (inp : input) (p : pc) (em : EventManager) :
  _is_running em = false → _tasks em = [] → _fds em = ∅ →
  p ≠ Returned → p ≠ Undefined →
  ∃ mid,
    worker_step inp p em =
      (Returned, em,
       [MutexLock] ++ mid ++ [EventfdWrite (_event_fd em) 1; MutexUnlock]) ∧
    Forall (λ e, (∃ errno, e = LogError errno) ∨ e = EventfdRead (_event_fd em)) mid.
Proof.
  intros Hrun Htasks Hfds Hp1 Hp2.
  assert (loop_head (now_wait inp) em =
          (Returned, em, [EventfdWrite (_event_fd em) 1; MutexUnlock])) as Hlh
    by (by rewrite loop_head_eq, Hrun).
  assert (drain inp em =
          (Returned, em, [EventfdWrite (_event_fd em) 1; MutexUnlock])) as Hdr
    by (by rewrite drain_eq, Htasks).
  assert (∀ evs, ∃ mid,
    dispatch evs inp em =
      (Returned, em, mid ++ [EventfdWrite (_event_fd em) 1; MutexUnlock]) ∧
    Forall (λ e, (∃ errno, e = LogError errno) ∨ e = EventfdRead (_event_fd em)) mid)
    as Hdisp.
  { intros evs. destruct (dispatch_no_watch_trace evs inp em Hfds) as (pre & Hpre & ->).
    exists pre. rewrite Hdr. split; [done|].
    eapply Forall_impl; [exact Hpre|]. intros e ->. by right. }
  destruct p; try done; cbn [worker_step]; rewrite bind_emit_eq.
  - exists []. by rewrite Hlh.
  - destruct (waited inp) as [evs|errno].
    + destruct (Hdisp evs) as (mid & -> & Hmid). by exists mid.
    + unfold when_. case_bool_decide; cbn [negb].
      * exists []. split; [|constructor]. by rewrite bind_ret_eq, Hlh.
      * exists [LogError errno].
        split; [|constructor; [left; by eexists|constructor]].
        by rewrite bind_emit_eq, Hlh.
  - destruct (Hdisp pending) as (mid & -> & Hmid). by exists mid.
  - exists []. by rewrite Hdr.
Qed.

Lemma worker_leaves_after_stop_witness :
  ∃ mid,
    worker_step (mkInput (WaitReady [mkEvent EPOLLIN 4]) 1 1) (InEpollWait 10000)
      (stopped (EventManager_new 3 4).1) =
      (Returned, stopped (EventManager_new 3 4).1,
       [MutexLock] ++ mid ++ [EventfdWrite 4 1; MutexUnlock]) ∧
    Forall (λ e, (∃ errno, e = LogError errno) ∨ e = EventfdRead 4) mid.
Proof.
  apply (worker_leaves_after_stop (mkInput (WaitReady [mkEvent EPOLLIN 4]) 1 1)
           (InEpollWait 10000) (stopped (EventManager_new 3 4).1));
    [reflexivity | reflexivity | reflexivity | discriminate | discriminate].
Defined.

(** X9. The timeout of a worker follows the time left to the root
    deadline up to the rounding of the [double] arithmetic of the code.
    When the product the code computes fits an [int], the timeout is the
    product without its fraction, or 0 if that is negative; it lies
    between 0 and [INT_MAX]; it is 0 once the deadline has passed; it
    exceeds the time left, in milliseconds, by less than a millionth of a
    millisecond, and is short of it by less than one millisecond and a
    millionth. *)
Theorem wait_timeout_bounds (front : Task) (tasks : list Task)
    (now d ms : WallTime) :
  double_sub (when front) now = Some d →
  double_mul d 1000 = Some ms →
  (INT_MIN ≤ Qtrunc ms ≤ INT_MAX)%Z →
  wait_timeout (front :: tasks) now = Some (Z.max 0 (Qtrunc ms)) ∧
  (0 ≤ Z.max 0 (Qtrunc ms) ≤ INT_MAX)%Z ∧
  ((when front <= now)%Q → Z.max 0 (Qtrunc ms) = 0%Z) ∧
  (inject_Z (Z.max 0 (Qtrunc ms)) <=
     Qmax 0 ((when front - now) * 1000) + (1 # 1000000))%Q ∧
  (Qmax 0 ((when front - now) * 1000) - (1 # 1000000) <
     inject_Z (Z.max 0 (Qtrunc ms)) + 1)%Q.
Proof.
  intros Hd Hms Hrange.
  split; [by apply (wait_timeout_in_range _ _ _ d ms)|].
  split; [unfold INT_MAX in *; lia|].
  split.
  { intros Hpast.
    assert (d <= 0)%Q as Hd0 by (apply (round_double_nonpos _ _ Hd); lra).
    assert (ms <= 0)%Q as Hms0 by (apply (round_double_nonpos _ _ Hms); lra).
    apply Qtrunc_nonpos in Hms0. lia. }
  assert (- 2 ^ 32 <= ms <= 2 ^ 32)%Q as Hbox.
  { pose proof (Qtrunc_near ms) as [Hlo Hhi]. destruct Hrange as [Hmin Hmax].
    rewrite Zle_Qle in Hmin, Hmax.
    change (inject_Z INT_MIN) with (- 2 ^ 31)%Q in Hmin.
    change (inject_Z INT_MAX) with (2 ^ 31 - 1)%Q in Hmax. lra. }
  pose proof (double_ms_error _ _ _ _ Hd Hms Hbox) as Herr.
  apply Qabs_Qle_condition in Herr.
  set (x := ((when front - now) * 1000)%Q) in *.
  assert (0 <= Qmax 0 x ∧ x <= Qmax 0 x ∧ (Qmax 0 x == 0 ∨ Qmax 0 x == x))%Q
    as (Hm0 & Hmx & Hm).
  { destruct (Q.max_spec 0 x) as [[? E]|[? E]]; rewrite E; split_and!; auto; lra. }
  destruct (Qlt_le_dec ms 0) as [Hneg|Hpos].
  - assert (Qtrunc ms ≤ 0)%Z as Hle by (apply Qtrunc_nonpos; lra).
    rewrite Z.max_l by lia. change (inject_Z 0) with 0%Q.
    destruct Hm as [E|E]; rewrite E; lra.
  - pose proof (Qtrunc_nonneg ms Hpos) as Hge.
    destruct (Qtrunc_bounds ms Hpos) as [Hlo Hhi].
    rewrite Z.max_r by lia.
    destruct Hm as [E|E]; rewrite E; lra.
Qed.

Lemma wait_timeout_bounds_witness :
  wait_timeout [mkTask (5188146770730811 # 576460752303423488) 0] 0 = Some 9%Z ∧
  (0 ≤ 9 ≤ INT_MAX)%Z ∧
  (((5188146770730811 # 576460752303423488) <= 0)%Q → 9%Z = 0%Z) ∧
  (inject_Z 9 <=
     Qmax 0 (((5188146770730811 # 576460752303423488) - 0) * 1000) + (1 # 1000000))%Q ∧
  (Qmax 0 (((5188146770730811 # 576460752303423488) - 0) * 1000) - (1 # 1000000) <
     inject_Z 9 + 1)%Q.
Proof.
  assert (double_sub (5188146770730811 # 576460752303423488) 0 =
          Some (5188146770730811 # 576460752303423488)) as Hd
    by (vm_compute; reflexivity).
  assert (double_mul (5188146770730811 # 576460752303423488) 1000 = Some 9%Q) as Hms
    by (vm_compute; reflexivity).
  assert (INT_MIN ≤ Qtrunc 9 ≤ INT_MAX)%Z as Hrange
    by (vm_compute; split; discriminate).
  exact (wait_timeout_bounds (mkTask (5188146770730811 # 576460752303423488) 0)
           [] 0 _ _ Hd Hms Hrange).
Defined.

(** ** The mutex *)

Lemma mutex_after_app h tr1 tr2 :
  mutex_after h (tr1 ++ tr2) = mutex_after h tr1 ≫= λ h', mutex_after h' tr2.
Proof.
  revert h. induction tr1 as [|e tr1 IH]; intros h; [done|].
  destruct e, h; cbn; try done; apply IH.
Qed.

Lemma mutex_after_join_all ts :
  mutex_after true (join_all ts) = Some true.
Proof. induction ts as [|t ts IH]; [done|]. exact IH. Qed.

(** X10. Every public operation takes the mutex once at its start and has
    released it when it returns, on the refusing paths as on the others;
    in between it touches the descriptors and creates threads only while
    it holds the mutex, and [stop] holds it during none of its joins. *)
Theorem operations_release_the_mutex (self : pthread_t) (n : Z)
    (new_thread : nat → pthread_t) (fn : TaskFn) (w : WallTime)
    (fd flags : Z) (cb : FdFn) (em : EventManager) :
  mutex_after false (trace_of (start self n new_thread em)) = Some false ∧
  mutex_after false (trace_of (stop self em)) = Some false ∧
  mutex_after false (trace_of (enqueue fn w em)) = Some false ∧
  mutex_after false (trace_of (watchFd fd flags cb em)) = Some false ∧
  mutex_after false (trace_of (removeFd fd flags em)) = Some false.
Proof.
  split_and!.
  - rewrite start_eq. case_bool_decide; [done|]. rewrite trace_of_mk.
    cbn [app mutex_after]. rewrite mutex_after_app.
    assert (mutex_after true (ThreadCreate <$> spawned n new_thread) = Some true)
      as -> by (induction (spawned n new_thread) as [|t l IH]; [done|exact IH]).
    done.
  - rewrite stop_eq. case_bool_decide; [done|]. rewrite trace_of_mk.
    cbn [app mutex_after]. unfold stop_warnings.
    rewrite !mutex_after_app.
    do 2 case_bool_decide; cbn; rewrite mutex_after_app, mutex_after_join_all; done.
  - rewrite enqueue_eq, trace_of_mk.
    destruct (head _); [destruct (negb _)|]; done.
  - rewrite watchFd_eq. by case_bool_decide.
  - rewrite removeFd_eq. by case_bool_decide.
Qed.

Lemma loop_head_mutex now em :
  mutex_after true (trace_of (loop_head now em)) =
    Some (is_undefined (result (loop_head now em))).
Proof.
  rewrite loop_head_eq.
  destruct (_is_running em); [destruct (wait_timeout _ _)|]; done.
Qed.

Lemma drain_mutex inp em :
  mutex_after true (trace_of (drain inp em)) =
    Some (is_undefined (result (drain inp em))).
Proof.
  rewrite drain_eq.
  destruct (head _); [destruct (Qle_bool _ _)|]; try apply loop_head_mutex. done.
Qed.

Lemma dispatch_mutex evs inp em :
  mutex_after true (trace_of (dispatch evs inp em)) =
    Some (is_undefined (result (dispatch evs inp em))).
Proof.
  induction evs as [|ev pending IH]; [apply drain_mutex|].
  rewrite dispatch_cons. destruct (_fds em !! _); [done|].
  case_bool_decide; [|done]. by rewrite bind_emit_eq.
Qed.

Lemma worker_step_mutex inp p em :
  is_undefined p = false →
  mutex_after false (trace_of (worker_step inp p em)) =
    Some (is_undefined (result (worker_step inp p em))).
Proof.
  intros Hp. destruct p; try done; cbn [worker_step]; rewrite bind_emit_eq;
    rewrite trace_of_mk, result_mk; cbn [app mutex_after].
  - apply loop_head_mutex.
  - destruct (waited inp) as [evs|errno]; [apply dispatch_mutex|].
    unfold when_. case_bool_decide; cbn [negb].
    + rewrite bind_ret_eq. apply loop_head_mutex.
    + rewrite bind_emit_eq, trace_of_mk, result_mk. apply loop_head_mutex.
  - apply dispatch_mutex.
  - apply drain_mutex.
Qed.

Lemma worker_step_undefined inp em :
  worker_step inp Undefined em = (Undefined, em, []).
Proof. done. Qed.

Lemma thread_main_undefined inps em :
  thread_main inps Undefined em = (Undefined, em, []).
Proof.
  induction inps as [|inp inps IH]; [done|].
  rewrite thread_main_cons. cbv zeta.
  by rewrite worker_step_undefined, result_mk, state_of_mk, IH.
Qed.

(** X11. A worker never holds the mutex while it waits in [epoll_wait] or
    runs a callback, takes it again before it touches anything, and does
    not hold it between its steps nor when [thread_main] has returned: the
    whole trace of a new worker, for any inputs, replays against the
    mutex, which is free at its end (unless the timeout cast has left the
    defined range). *)
Theorem worker_releases_the_mutex (inps : list input) (em : EventManager) :
  mutex_after false (trace_of (thread_main inps Spawned em)) =
    Some (is_undefined (result (thread_main inps Spawned em))).
Proof.
  assert (∀ p em, is_undefined p = false →
    mutex_after false (trace_of (thread_main inps p em)) =
      Some (is_undefined (result (thread_main inps p em)))) as Hgen.
  { induction inps as [|inp inps IH]; intros p em' Hp; [by cbn; rewrite Hp|].
    rewrite thread_main_cons. cbv zeta. rewrite trace_of_mk, result_mk.
    rewrite mutex_after_app, worker_step_mutex by done. cbn [mbind option_bind].
    destruct (is_undefined (result (worker_step inp p em'))) eqn:Hu.
    - destruct (result (worker_step inp p em')); try done.
      by rewrite thread_main_undefined.
    - by apply IH. }
  by apply Hgen.
Qed.

(** ** System calls *)

Lemma wait_timeout_range tasks now timeout :
  wait_timeout tasks now = Some timeout → (0 ≤ timeout ≤ INT_MAX)%Z.
Proof.
  unfold wait_timeout, static_cast_int. destruct (head tasks) as [front|].
  - destruct (double_sub _ _) as [d|]; [|done]. cbn.
    destruct (double_mul _ _) as [ms|]; [|done]. cbn.
    case_bool_decide as Hr; [|done]. cbn. intros [= <-].
    destruct (Z.ltb_spec (Qtrunc ms) 0); unfold INT_MAX in *; lia.
  - intros [= <-]. by vm_compute.
Qed.

Lemma loop_head_descriptors now em : keeps_descriptors em (loop_head now em).
Proof.
  rewrite loop_head_eq. unfold keeps_descriptors.
  destruct (_is_running em); [destruct (wait_timeout _ _) as [t|] eqn:Ht|];
    rewrite trace_of_mk, state_of_mk; split_and!; try done;
    repeat constructor; eauto using wait_timeout_range.
  all: by apply (wait_timeout_range _ _ _ Ht).
Qed.

Lemma drain_descriptors inp em : keeps_descriptors em (drain inp em).
Proof.
  rewrite drain_eq.
  destruct (head _); [destruct (Qle_bool _ _)|]; try apply loop_head_descriptors.
  split_and!; [by repeat constructor|done|done].
Qed.

Lemma keeps_descriptors_prefix {A} em e (r : A * EventManager * list effect) :
  syscall_ok (_epoll_fd em) (_event_fd em) e →
  keeps_descriptors em r →
  keeps_descriptors em (result r, state_of r, [e] ++ trace_of r).
Proof. intros He (Htr & H1 & H2). split_and!; [by constructor|done|done]. Qed.

Lemma dispatch_descriptors evs inp em : keeps_descriptors em (dispatch evs inp em).
Proof.
  induction evs as [|ev pending IH]; [apply drain_descriptors|].
  rewrite dispatch_cons. destruct (_fds em !! _).
  - split_and!; [by repeat constructor|done|done].
  - case_bool_decide; [|done]. rewrite bind_emit_eq.
    by apply keeps_descriptors_prefix.
Qed.

Lemma worker_step_descriptors inp p em :
  keeps_descriptors em (worker_step inp p em).
Proof.
  destruct p; cbn [worker_step];
    try (split_and!; [constructor|done|done]);
    rewrite bind_emit_eq; apply keeps_descriptors_prefix; try done.
  - apply loop_head_descriptors.
  - destruct (waited inp) as [evs|errno]; [apply dispatch_descriptors|].
    unfold when_. case_bool_decide; cbn [negb].
    + rewrite bind_ret_eq. apply loop_head_descriptors.
    + rewrite bind_emit_eq.
      apply keeps_descriptors_prefix; [done|apply loop_head_descriptors].
  - apply dispatch_descriptors.
  - apply drain_descriptors.
Qed.

Lemma world_step_descriptors a w w' tr :
  world_step a w = Some (w', tr) →
  Forall (syscall_ok (_epoll_fd (reactor w)) (_event_fd (reactor w))) tr ∧
  _epoll_fd (reactor w') = _epoll_fd (reactor w) ∧
  _event_fd (reactor w') = _event_fd (reactor w).
Proof.
  intros Hstep. destruct a; cbn [world_step] in Hstep.
  - destruct (_ && _); [|done]. rewrite start_eq in Hstep.
    case_bool_decide; simplify_eq; cbn; (split_and!; [|done|done]).
    + by repeat constructor.
    + constructor; [done|]. apply Forall_app. split; [|by repeat constructor].
      by induction (spawned num_threads new_thread); constructor.
  - destruct (may_call _ _); [|done]. rewrite stop_enter_eq in Hstep.
    unfold stop_warnings in Hstep.
    case_bool_decide; [simplify_eq; split_and!; [by repeat constructor|done|done]|].
    cbv zeta in Hstep.
    destruct (set_begin _); do 2 case_bool_decide; simplify_eq; cbn;
      (split_and!; [by repeat constructor|done|done]).
  - destruct (stoppers w !! self) as [i|]; [|done].
    destruct (workers w !! i) as [[]|]; try done.
    rewrite stop_joined_eq in Hstep.
    destruct (set_next _ _); simplify_eq; cbn;
      (split_and!; [by repeat constructor|done|done]).
  - destruct (may_call _ _); [|done]. rewrite enqueue_eq in Hstep.
    simplify_eq. cbn. split_and!; [|done|done].
    destruct (head _); [destruct (negb _)|]; by repeat constructor.
  - destruct (may_call _ _); [|done]. rewrite watchFd_eq in Hstep.
    case_bool_decide; simplify_eq; cbn;
      (split_and!; [by repeat constructor|done|done]).
  - destruct (may_call _ _); [|done]. rewrite removeFd_eq in Hstep.
    case_bool_decide; simplify_eq; cbn;
      (split_and!; [by repeat constructor|done|done]).
  - destruct (workers w !! t) as [p|]; [|done].
    pose proof (worker_step_descriptors inp p (reactor w)) as Hk.
    destruct (worker_step inp p (reactor w)) as [[p' em'] tr'].
    destruct p; by simplify_eq.
Qed.

(** X12. In every run of the system from construction, whatever the
    threads do, all system calls go to the two descriptors made by the
    constructor, which no operation ever replaces; every wakeup writes the
    value 1; and [epoll_wait] is always called with room for 32 events and
    a timeout between 0 and [INT_MAX], never with a negative one, which
    would wait for ever. *)
Theorem syscalls_in_every_run (epoll_fd event_fd : Z) (acts : list action)
    (w : World) (tr : list effect) :
  world_run acts (initial_world epoll_fd event_fd) = Some (w, tr) →
  Forall (syscall_ok epoll_fd event_fd) tr ∧
  _epoll_fd (reactor w) = epoll_fd ∧ _event_fd (reactor w) = event_fd.
Proof.
  assert (∀ w0 w tr, world_run acts w0 = Some (w, tr) →
    Forall (syscall_ok (_epoll_fd (reactor w0)) (_event_fd (reactor w0))) tr ∧
    _epoll_fd (reactor w) = _epoll_fd (reactor w0) ∧
    _event_fd (reactor w) = _event_fd (reactor w0)) as Hgen.
  { clear. induction acts as [|a acts IH]; intros w0 w tr Hrun.
    - cbn in Hrun. simplify_eq. split_and!; [constructor|done|done].
    - cbn [world_run] in Hrun.
      destruct (world_step a w0) as [[w1 tr1]|] eqn:Hstep; [|done]. cbn in Hrun.
      destruct (world_run acts w1) as [[w2 tr2]|] eqn:Hrun'; [|done]. cbn in Hrun.
      simplify_eq.
      destruct (world_step_descriptors _ _ _ _ Hstep) as (Htr1 & He1 & Hv1).
      destruct (IH _ _ _ Hrun') as (Htr2 & He2 & Hv2).
      rewrite He1, Hv1 in *. split_and!; [by apply Forall_app|done|done]. }
  intros Hrun. exact (Hgen _ _ _ Hrun).
Qed.

Lemma syscalls_in_every_run_witness :
  ∃ w tr,
    world_run [CallStart 9%N 1 (λ i, 20%N); CallEnqueue 9%N 0 5;
               WorkerRuns 20%N (mkInput (WaitReady []) 1 1)]
      (initial_world 3 4) = Some (w, tr) ∧
    Forall (syscall_ok 3 4) tr.
Proof.
  destruct (world_run [CallStart 9%N 1 (λ i, 20%N); CallEnqueue 9%N 0 5;
                       WorkerRuns 20%N (mkInput (WaitReady []) 1 1)]
              (initial_world 3 4)) as [[w tr]|] eqn:Erun.
  - exists w, tr. split; [done|].
    exact (proj1 (syscalls_in_every_run 3 4 _ w tr Erun)).
  - vm_compute in Erun. discriminate Erun.
Defined.

(** ** Tasks over whole runs *)

Lemma fired_no_call tr : Forall (λ e, is_call e = false) tr → fired tr = [].
Proof.
  induction 1 as [|e tr He _ IH]; [done|]. unfold fired in *. cbn.
  rewrite IH. by destruct e.
Qed.

Lemma fired_elem_of t tr : t ∈ fired tr → CallTask t ∈ tr.
Proof.
  unfold fired. intros Hin. apply list_elem_of_omap in Hin as (e & He & Hsome).
  destruct e; simplify_eq. done.
Qed.

(** What a step of a caller (not of a worker) does to the timer heap. *)
Lemma caller_step_tasks a w w' tr :
  (∀ t inp, a ≠ WorkerRuns t inp) →
  world_step a w = Some (w', tr) →
  Forall (λ e, is_call e = false) tr ∧
  _tasks (reactor w') ⊆+ _tasks (reactor w) ++ enqueued_by a ∧
  (no_stop a → _tasks (reactor w') ≡ₚ _tasks (reactor w) ++ enqueued_by a) ∧
  (no_register a → _tasks (reactor w) = [] → _fds (reactor w) = ∅ →
   _tasks (reactor w') = [] ∧ _fds (reactor w') = ∅).
Proof.
  intros Hnw Hstep. destruct a; cbn [world_step enqueued_by no_stop no_register] in *;
    rewrite ?app_nil_r.
  - destruct (_ && _); [|done]. rewrite start_eq in Hstep.
    case_bool_decide; simplify_eq; cbn; (split_and!; [|done|done|done]).
    + by repeat constructor.
    + constructor; [done|]. apply Forall_app. split; [|by repeat constructor].
      by induction (spawned num_threads new_thread); constructor.
  - destruct (may_call _ _); [|done]. rewrite stop_enter_eq in Hstep.
    unfold stop_warnings in Hstep.
    case_bool_decide; [simplify_eq; split_and!; [by repeat constructor|done|done|done]|].
    cbv zeta in Hstep.
    destruct (set_begin _); do 2 case_bool_decide; simplify_eq; cbn;
      (split_and!; [by repeat constructor|apply submseteq_nil_l|done|done]).
  - destruct (stoppers w !! self) as [i|]; [|done].
    destruct (workers w !! i) as [[]|]; try done.
    rewrite stop_joined_eq in Hstep.
    destruct (set_next _ _); simplify_eq; cbn;
      (split_and!; [by repeat constructor|done|done|done]).
  - destruct (may_call _ _); [|done]. rewrite enqueue_eq in Hstep.
    simplify_eq. cbn. split_and!; [| | |done].
    + destruct (head _); [destruct (negb _)|]; by repeat constructor.
    + by rewrite push_heap_Permutation.
    + intros _. apply push_heap_Permutation.
  - destruct (may_call _ _); [|done]. rewrite watchFd_eq in Hstep.
    case_bool_decide; simplify_eq; cbn;
      (split_and!; [by repeat constructor|done|done|done]).
  - destruct (may_call _ _); [|done]. rewrite removeFd_eq in Hstep.
    case_bool_decide; simplify_eq; cbn;
      (split_and!; [by repeat constructor|done|done|]).
    + done.
    + intros _ Ht Hf. split; [done|]. rewrite Hf. apply delete_empty.
  - by destruct (Hnw t inp).
Qed.

Lemma worker_world_step t inp w w' tr :
  world_step (WorkerRuns t inp) w = Some (w', tr) →
  ∃ p, reactor w' = state_of (worker_step inp p (reactor w)) ∧
       tr = trace_of (worker_step inp p (reactor w)).
Proof.
  cbn [world_step]. destruct (workers w !! t) as [p|]; [|done]. intros Hstep.
  exists p. destruct (worker_step inp p (reactor w)) as [[p' em'] tr'].
  destruct p; by simplify_eq.
Qed.

Lemma action_cases a :
  (∃ t inp, a = WorkerRuns t inp) ∨ (∀ t inp, a ≠ WorkerRuns t inp).
Proof. destruct a; eauto. Qed.

Lemma world_step_account a w w' tr :
  is_heap compareTasks (_tasks (reactor w)) →
  world_step a w = Some (w', tr) →
  fired tr ++ _tasks (reactor w') ⊆+ _tasks (reactor w) ++ enqueued_by a ∧
  (no_stop a →
   fired tr ++ _tasks (reactor w') ≡ₚ _tasks (reactor w) ++ enqueued_by a).
Proof.
  intros Hheap Hstep. destruct (action_cases a) as [(t & inp & ->)|Hnw].
  - destruct (worker_world_step _ _ _ _ _ Hstep) as (p & -> & ->).
    destruct (quiet_or_pop_heap inp (reactor w) _
                (worker_step_quiet_or_pop inp p (reactor w)) Hheap)
      as (_ & Hperm & _).
    cbn [enqueued_by]. rewrite app_nil_r, <- Hperm. done.
  - destruct (caller_step_tasks a w w' tr Hnw Hstep) as (Hq & Hsub & Hperm & _).
    by rewrite (fired_no_call tr Hq).
Qed.

(** X13. No task is run twice and none is made up: in every run from a
    reachable state, the tasks run together with the tasks still queued
    are among the tasks queued at the start plus those scheduled during
    the run, each as often as it was scheduled; and as long as nobody
    calls [stop], none is lost either. *)
Theorem tasks_accounted_for (acts : list action) (w w' : World)
    (tr : list effect) :
  reachable w →
  world_run acts w = Some (w', tr) →
  fired tr ++ _tasks (reactor w') ⊆+ _tasks (reactor w) ++ enqueued acts ∧
  (Forall no_stop acts →
   fired tr ++ _tasks (reactor w') ≡ₚ _tasks (reactor w) ++ enqueued acts).
Proof.
  intros Hw. apply reachable_heap in Hw. revert w tr Hw.
  induction acts as [|a acts IH]; intros w tr Hheap Hrun.
  { cbn in Hrun. simplify_eq. cbn. by rewrite app_nil_r. }
  cbn [world_run] in Hrun.
  destruct (world_step a w) as [[w1 tr1]|] eqn:Hstep; [|done]. cbn in Hrun.
  destruct (world_run acts w1) as [[w2 tr2]|] eqn:Hrun'; [|done]. cbn in Hrun.
  simplify_eq.
  pose proof (world_step_heap a w w1 tr1 Hheap Hstep) as Hheap1.
  destruct (world_step_account a w w1 tr1 Hheap Hstep) as [Hsub1 Hperm1].
  destruct (IH w1 tr2 Hheap1 Hrun') as [Hsub2 Hperm2].
  unfold enqueued in *. cbn [flat_map]. rewrite fired_app.
  rewrite (app_assoc (_tasks (reactor w))), <- (app_assoc (fired tr1)).
  split.
  - etrans; [apply submseteq_skips_l, Hsub2|].
    rewrite app_assoc. by apply submseteq_skips_r.
  - intros Hns. apply Forall_cons in Hns as [Ha Hns].
    rewrite (Hperm2 Hns), app_assoc, (Hperm1 Ha). done.
Qed.

Lemma tasks_accounted_for_witness :
  ∃ w' tr,
    world_run [CallStart 9%N 1 (λ i, 20%N); CallEnqueue 9%N 0 5;
               CallEnqueue 9%N 1 2;
               WorkerRuns 20%N (mkInput (WaitReady []) 3 3);
               WorkerRuns 20%N (mkInput (WaitReady []) 3 3)]
      (initial_world 3 4) = Some (w', tr) ∧
    fired tr ++ _tasks (reactor w') ≡ₚ [mkTask 5 0; mkTask 2 1].
Proof.
  destruct (world_run [CallStart 9%N 1 (λ i, 20%N); CallEnqueue 9%N 0 5;
                       CallEnqueue 9%N 1 2;
                       WorkerRuns 20%N (mkInput (WaitReady []) 3 3);
                       WorkerRuns 20%N (mkInput (WaitReady []) 3 3)]
              (initial_world 3 4)) as [[w' tr]|] eqn:Erun.
  - exists w', tr. split; [done|].
    apply (proj2 (tasks_accounted_for _ _ w' tr (reachable_initial 3 4) Erun)).
    by repeat constructor.
  - vm_compute in Erun. discriminate Erun.
Defined.

(** X14. No task is run before its deadline: every task run in a run of
    the system is run by a step of a worker at which the clock, as read by
    the timer loop, has reached the deadline of the task. *)
Theorem tasks_never_early (acts : list action) (w w' : World)
    (tr : list effect) (t : Task) :
  world_run acts w = Some (w', tr) →
  t ∈ fired tr →
  ∃ thread inp, WorkerRuns thread inp ∈ acts ∧ (when t <= now_due inp)%Q.
Proof.
  revert w tr. induction acts as [|a acts IH]; intros w tr Hrun Ht.
  { cbn in Hrun. simplify_eq. by apply elem_of_nil in Ht. }
  cbn [world_run] in Hrun.
  destruct (world_step a w) as [[w1 tr1]|] eqn:Hstep; [|done]. cbn in Hrun.
  destruct (world_run acts w1) as [[w2 tr2]|] eqn:Hrun'; [|done]. cbn in Hrun.
  simplify_eq. rewrite fired_app in Ht. apply elem_of_app in Ht as [Ht|Ht].
  - destruct (action_cases a) as [(thread & inp & ->)|Hnw].
    + exists thread, inp. split; [left|].
      destruct (worker_world_step _ _ _ _ _ Hstep) as (p & _ & ->).
      destruct (worker_step_quiet_or_pop inp p (reactor w))
        as [[Hf _]|(t0 & _ & Hdue & Hf & _)]; rewrite Hf in Ht.
      * by apply elem_of_nil in Ht.
      * apply list_elem_of_singleton in Ht. by subst.
    + destruct (caller_step_tasks a w w1 tr1 Hnw Hstep) as (Hq & _).
      rewrite (fired_no_call tr1 Hq) in Ht. by apply elem_of_nil in Ht.
  - destruct (IH _ _ Hrun' Ht) as (thread & inp & Hin & Hdue).
    exists thread, inp. split; [by right|done].
Qed.

Lemma tasks_never_early_witness :
  ∃ thread inp,
    WorkerRuns thread inp ∈
      [CallStart 9%N 1 (λ i, 20%N); CallEnqueue 9%N 0 5;
       WorkerRuns 20%N (mkInput (WaitReady []) 1 1);
       WorkerRuns 20%N (mkInput (WaitReady []) 6 6)] ∧
    (5 <= now_due inp)%Q.
Proof.
  destruct (world_run [CallStart 9%N 1 (λ i, 20%N); CallEnqueue 9%N 0 5;
                       WorkerRuns 20%N (mkInput (WaitReady []) 1 1);
                       WorkerRuns 20%N (mkInput (WaitReady []) 6 6)]
              (initial_world 3 4)) as [[w' tr]|] eqn:Erun.
  - apply (tasks_never_early _ _ w' tr (mkTask 5 0) Erun).
    vm_compute in Erun. injection Erun as _ <-. vm_compute. left.
  - vm_compute in Erun. discriminate Erun.
Defined.




(** ** A task that is already due *)

Lemma dispatch_unregistered evs inp em :
  Forall (λ ev, _fds em !! (data_fd ev, int_of_uint32 (events ev)) = None) evs →
  ∃ pre, Forall (λ e, e = EventfdRead (_event_fd em)) pre ∧
         dispatch evs inp em =
           (result (drain inp em), state_of (drain inp em),
            pre ++ trace_of (drain inp em)).
Proof.
  induction 1 as [|ev pending Hev _ (pre & Hpre & IH)].
  - exists []. split; [constructor|]. cbn [dispatch app].
    by destruct (drain inp em) as [[? ?] ?].
  - rewrite dispatch_cons, Hev. case_bool_decide.
    + exists (EventfdRead (_event_fd em) :: pre). split; [by constructor|].
      by rewrite bind_emit_eq, IH.
    + by exists pre.
Qed.

Lemma push_heap_new_root v fn w :
  is_heap compareTasks v →
  (∀ t, t ∈ v → (w < when t)%Q) →
  head (push_heap compareTasks (v ++ [mkTask w fn])) = Some (mkTask w fn).
Proof.
  intros Hheap Hmin.
  pose proof (push_heap_tasks_is_heap v (mkTask w fn) Hheap) as Hheap'.
  pose proof (push_heap_Permutation compareTasks (v ++ [mkTask w fn])) as Hperm.
  destruct (head (push_heap compareTasks (v ++ [mkTask w fn]))) as [r|] eqn:Hr.
  2:{ apply head_None in Hr. rewrite Hr in Hperm.
      apply Permutation_nil_l in Hperm. by destruct v. }
  assert (when r <= w)%Q as Hle.
  { apply (tasks_root_min _ r (mkTask w fn) Hheap' Hr). rewrite Hperm.
    apply elem_of_app. right. by apply list_elem_of_singleton. }
  assert (r ∈ v ++ [mkTask w fn]) as Hin
    by (rewrite <- Hperm; by apply head_elem_of).
  apply elem_of_app in Hin as [Hin|Hin].
  - specialize (Hmin r Hin). lra.
  - apply list_elem_of_singleton in Hin. by subst.
Qed.

(** X16. A task scheduled with a deadline that has passed and that is
    earlier than everything queued is the next thing a waking worker
    runs: [enqueue] puts it at the root and, unless the heap was empty and
    the deadline is [-1], writes the wakeup channel; the worker that
    wakes, when none of the reported events belongs to a watch, reads the
    channel if it is reported, pops the new task and calls it, and the
    heap is again what it was before the call. *)
Theorem overdue_task_runs_next (fn : TaskFn) (w : WallTime) (evs : list epoll_event)
    (inp : input) (timeout : Z) (em : EventManager) :
  is_heap compareTasks (_tasks em) →
  (∀ t, t ∈ _tasks em → (w < when t)%Q) →
  (w <= now_due inp)%Q →
  waited inp = WaitReady evs →
  Forall (λ ev, _fds em !! (data_fd ev, int_of_uint32 (events ev)) = None) evs →
  (_tasks em ≠ [] ∨ ¬ (w == -1)%Q →
   trace_of (enqueue fn w em) =
     [MutexLock; EventfdWrite (_event_fd em) 1; MutexUnlock]) ∧
  ∃ pre,
    Forall (λ e, e = EventfdRead (_event_fd em)) pre ∧
    result (worker_step inp (InEpollWait timeout) (state_of (enqueue fn w em))) =
      InTaskCallback ∧
    trace_of (worker_step inp (InEpollWait timeout) (state_of (enqueue fn w em))) =
      [MutexLock] ++ pre ++ [MutexUnlock; CallTask (mkTask w fn)] ∧
    _tasks (state_of (worker_step inp (InEpollWait timeout)
                        (state_of (enqueue fn w em)))) ≡ₚ _tasks em.
Proof.
  intros Hheap Hmin Hdue Hwait Hun. split.
  - intros Hsig. rewrite (enqueue_signal fn w em Hheap).
    destruct (_tasks em) as [|front tasks] eqn:Htasks; cbn [head].
    + destruct Hsig as [Hne|Hne]; [done|].
      destruct (Qeq_bool w (-1)) eqn:E; [|done].
      apply Qeq_bool_iff in E. by destruct Hne.
    + unfold Qgt_bool.
      destruct (Qle_bool (when front) w) eqn:E; [|done].
      apply Qle_bool_iff in E. specialize (Hmin front ltac:(left)). lra.
  - rewrite enqueue_eq, state_of_mk.
    set (em' := set_tasks (push_heap compareTasks (_tasks em ++ [mkTask w fn])) em).
    assert (head (_tasks em') = Some (mkTask w fn)) as Hroot
      by (by apply push_heap_new_root).
    assert (is_heap compareTasks (_tasks em')) as Hheap'
      by (by apply push_heap_tasks_is_heap).
    destruct (dispatch_unregistered evs inp em' Hun) as (pre & Hpre & Hdisp).
    exists pre. cbn [worker_step]. rewrite bind_emit_eq, Hwait, Hdisp.
    rewrite (drain_due inp em' (mkTask w fn) Hroot Hdue).
    rewrite !result_mk, !state_of_mk, !trace_of_mk.
    split_and!; [done|done|done|].
    destruct (pop_tasks_spec _ _ Hheap' Hroot) as [_ Hperm]. cbn [_tasks set_tasks].
    apply (Permutation_cons_inv (a := mkTask w fn)). rewrite <- Hperm.
    unfold em'. cbn [_tasks set_tasks].
    rewrite push_heap_Permutation. symmetry. apply Permutation_cons_append.
Qed.

Lemma overdue_task_runs_next_witness :
  let em := set_is_running true
              (set_tasks [mkTask 50 1; mkTask 60 2] (EventManager_new 3 4).1) in
  let inp := mkInput (WaitReady [mkEvent EPOLLIN 4]) 10 10 in
  trace_of (enqueue 0 5 em) = [MutexLock; EventfdWrite 4 1; MutexUnlock] ∧
  ∃ pre,
    Forall (λ e, e = EventfdRead 4) pre ∧
    trace_of (worker_step inp (InEpollWait 10000) (state_of (enqueue 0 5 em))) =
      [MutexLock] ++ pre ++ [MutexUnlock; CallTask (mkTask 5 0)].
Proof.
  intros em inp.
  assert (is_heap compareTasks (_tasks em)) as Hheap.
  { intros i x y Hi Hy Hx. destruct i as [|[|[|i]]]; cbn in *; simplify_eq; try lia.
    reflexivity. }
  assert (∀ t, t ∈ _tasks em → (5 < when t)%Q) as Hmin.
  { intros t Ht. cbn in Ht.
    repeat (apply elem_of_cons in Ht as [->|Ht]; [by vm_compute|]).
    by apply elem_of_nil in Ht. }
  destruct (overdue_task_runs_next 0 5 [mkEvent EPOLLIN 4] inp 10000 em
              Hheap Hmin ltac:(by vm_compute) eq_refl
              ltac:(by repeat constructor))
    as (Hsig & pre & Hpre & _ & Htr & _).
  split; [apply Hsig; left; discriminate|].
  exists pre. split; [exact Hpre|exact Htr].
Defined.

(** ** Shutdown completes *)









